(** * fldd: the shared-library dependency lister of firejail

    A shallow embedding of [src/fldd/main.c].  The two linked lists
    ([libs], [lib_paths]) are lists of strings with the head first, the
    mapped file is a list of bytes addressed from [base], and every
    function of the source is a function over an explicit program state.
    Reads that leave the bytes of the file are a separate outcome
    ([Fault]): what the machine does there (zeros up to the end of the
    page, a signal beyond) is outside the model.  Pointers are addresses
    in [Z]; sums of a pointer and a value taken from the file wrap at the
    pointer width, as they do on the machine. *)

From Stdlib Require Import ZArith List Bool Lia.
From Stdlib.Strings Require Import String Ascii Byte.
Import ListNotations.

Local Open Scope list_scope.
Local Open Scope string_scope.
Local Open Scope Z_scope.

(** The line feed the source writes as a backslash and an n. *)
Definition LF : string := String (ascii_of_nat 10) EmptyString.

(** ** Storage: the singly linked list of names *)

(** [typedef struct storage_t { struct storage_t *next; const char *name; } Storage;]
    The head of the C list is the head of the Rocq list. *)
Definition Storage := list string.

(** [storage_find]: 1 ([true]) when some node's name is [strcmp]-equal. *)
Fixpoint storage_find (ptr : Storage) (name : string) : bool :=
  match ptr with
  | [] => false
  | n :: next => if String.eqb n name then true else storage_find next name
  end.

(** [storage_add]: nothing when the name is found, otherwise a fresh node
    becomes the head.  [malloc] and [strdup] are taken to succeed. *)
Definition storage_add (head : Storage) (name : string) : Storage :=
  if storage_find head name then head else name :: head.

(** ** What the process does to the outside *)

Inductive event : Type :=
| Stderr (msg : string)                 (* fprintf(stderr, ...) *)
| Perror (tag : string)                 (* perror(tag) *)
| Stdout (msg : string)                 (* printf(...) *)
| Dprintf (fd : Z) (msg : string)       (* dprintf(fd, ...) *)
| OpenOut (path : string) (flags mode : Z) (ret : Z)
| CloseFd (fd : Z).

(** The globals of the file ([libs], [lib_paths], [arg_quiet]) and the
    events so far, oldest first. *)
Record state : Type := mkState {
  libs : Storage;
  lib_paths : Storage;
  arg_quiet : bool;
  trace : list event
}.

Definition emit (e : event) (st : state) : state :=
  mkState (libs st) (lib_paths st) (arg_quiet st) (trace st ++ [e])%list.

Definition set_libs (l : Storage) (st : state) : state :=
  mkState l (lib_paths st) (arg_quiet st) (trace st).

Definition set_lib_paths (l : Storage) (st : state) : state :=
  mkState (libs st) l (arg_quiet st) (trace st).

Definition set_quiet (q : bool) (st : state) : state :=
  mkState (libs st) (lib_paths st) q (trace st).

(** [if (!arg_quiet) fprintf(stderr, ...)] *)
Definition warn (msg : string) (st : state) : state :=
  if arg_quiet st then st else emit (Stderr msg) st.

(** [storage_print]: one [dprintf(fd, "%s\n", name)] per node, head first. *)
Fixpoint storage_print (ptr : Storage) (fd : Z) (st : state) : state :=
  match ptr with
  | [] => st
  | n :: next => storage_print next fd (emit (Dprintf fd (n ++ LF)) st)
  end.

(** ** The mapped image *)

Definition image := list byte.

Definition Z_of_byte (b : byte) : Z := Z.of_N (Byte.to_N b).

Definition byte_of_Z (z : Z) : byte :=
  match Byte.of_N (Z.to_N (z mod 256)) with
  | Some b => b
  | None => x00
  end.

(** One byte at address [a] of the mapping that starts at [base];
    [None] when [a] is not one of the mapped bytes. *)
Definition load_byte (m : image) (base a : Z) : option Z :=
  if base <=? a then option_map Z_of_byte (nth_error m (Z.to_nat (a - base)))
  else None.

(** [n] bytes, little endian (the host the default paths name is x86). *)
Fixpoint load_le (m : image) (base a : Z) (n : nat) : option Z :=
  match n with
  | O => Some 0
  | S n' =>
      match load_byte m base a, load_le m base (a + 1) n' with
      | Some b, Some r => Some (b + 256 * r)
      | _, _ => None
      end
  end.

Fixpoint upd (m : image) (i : nat) (b : byte) : image :=
  match m, i with
  | [], _ => []
  | _ :: t, O => b :: t
  | h :: t, S j => h :: upd t j b
  end.

(** [n] bytes written, little endian.  The source writes only where it
    has just read, so the place is a mapped one. *)
Fixpoint store_le (m : image) (base a : Z) (n : nat) (v : Z) : image :=
  match n with
  | O => m
  | S n' =>
      store_le (upd m (Z.to_nat (a - base)) (byte_of_Z v)) base (a + 1) n' (v / 256)
  end.

(** The NUL-terminated string that starts at the head of [l]; [None] when
    the bytes end before a NUL. *)
Fixpoint cstring_of (l : list byte) : option string :=
  match l with
  | [] => None
  | b :: r =>
      if Byte.eqb b x00 then Some EmptyString
      else option_map (String (ascii_of_byte b)) (cstring_of r)
  end.

Definition cstring (m : image) (base a : Z) : option string :=
  if base <=? a then cstring_of (skipn (Z.to_nat (a - base)) m) else None.

(** ** What <elf.h> fixes: sizes and field places *)

Record field : Type := mkField { f_off : Z; f_len : nat }.

(** The structure layouts the source takes from the system header, by
    [__LP64__]: pointer width in bits, structure sizes, and the fields the
    source reads. *)
Record elf_abi : Type := mkAbi {
  ptr_bits : Z;
  sizeof_Ehdr : Z;
  e_shoff : field;
  e_phnum : field;
  e_shnum : field;
  sizeof_Phdr : Z;
  p_type : field;
  p_offset : field;
  sizeof_Shdr : Z;
  sh_type : field;
  sh_offset : field;
  sh_size : field;
  sizeof_Dyn : Z;
  d_tag : field;
  d_ptr : field
}.

Definition Elf64 : elf_abi :=
  mkAbi 64
        64 (mkField 40 8) (mkField 56 2) (mkField 60 2)
        56 (mkField 0 4) (mkField 8 8)
        64 (mkField 4 4) (mkField 24 8) (mkField 32 8)
        16 (mkField 0 8) (mkField 8 8).

Definition Elf32 : elf_abi :=
  mkAbi 32
        52 (mkField 32 4) (mkField 44 2) (mkField 48 2)
        32 (mkField 0 4) (mkField 4 4)
        40 (mkField 4 4) (mkField 16 4) (mkField 20 4)
        8 (mkField 0 4) (mkField 4 4).

Definition ELFMAG : list Z := [127; 69; 76; 70].   (* "\177ELF", SELFMAG = 4 *)
Definition PT_INTERP : Z := 3.
Definition SHT_NULL : Z := 0.
Definition SHT_STRTAB : Z := 3.
Definition SHT_DYNAMIC : Z := 6.
Definition DT_NEEDED : Z := 1.
Definition DT_RPATH : Z := 15.
Definition DT_RUNPATH : Z := 29.
Definition STDOUT_FILENO : Z := 1.
Definition O_WRONLY : Z := 1.
Definition O_CREAT : Z := 64.
Definition O_TRUNC : Z := 512.
Definition NULL : Z := 0.

(** ** The environment of one run *)

Record file : Type := mkFile {
  f_access : bool;      (* access(path, R_OK) == 0 *)
  f_open : bool;        (* open(path, O_RDONLY) >= 0 *)
  f_bytes : image
}.

Record world : Type := mkWorld {
  LP64 : bool;                           (* is __LP64__ defined *)
  LIBDIR : string;                       (* the build-time macro *)
  files : list (string * file);          (* the paths that exist *)
  mmap_base : Z;                         (* the address mmap returns *)
  getenv_FIREJAIL_QUIET : option string;
  open_out : Z                           (* what open(argv[2], ...) returns *)
}.

Definition abi (W : world) : elf_abi := if LP64 W then Elf64 else Elf32.

Fixpoint lookup (fs : list (string * file)) (path : string) : option file :=
  match fs with
  | [] => None
  | (p, f) :: rest => if String.eqb p path then Some f else lookup rest path
  end.

(** [access(path, R_OK) == 0] *)
Definition access_ok (W : world) (path : string) : bool :=
  match lookup (files W) path with
  | Some f => f_access f
  | None => false
  end.

(** [open(path, O_RDONLY)]: the bytes behind the descriptor, or failure. *)
Definition open_rdonly (W : world) (path : string) : option image :=
  match lookup (files W) path with
  | Some f => if f_open f then Some (f_bytes f) else None
  | None => None
  end.

(** ** Control flow inside [copy_libs_for_exe] *)

Inductive res (A : Type) : Type :=
| Ret (a : A) (s : state)          (* falls through *)
| GotoClose (s : state)            (* goto close *)
| GotoErrorClose (s : state)       (* goto error_close *)
| Fault (s : state)                (* a read or write outside the mapped bytes *)
| NoFuel.                          (* the model's recursion bound was reached *)

Arguments Ret {A} a s.
Arguments GotoClose {A} s.
Arguments GotoErrorClose {A} s.
Arguments Fault {A} s.
Arguments NoFuel {A}.

Definition M (A : Type) : Type := state -> res A.

Definition ret {A} (a : A) : M A := fun s => Ret a s.

Definition bind {A B} (m : M A) (k : A -> M B) : M B :=
  fun s =>
    match m s with
    | Ret a s' => k a s'
    | GotoClose s' => GotoClose s'
    | GotoErrorClose s' => GotoErrorClose s'
    | Fault s' => Fault s'
    | NoFuel => NoFuel
    end.

Notation "x <- m ;; k" := (bind m (fun x => k))
  (at level 61, m at next level, right associativity).
Notation "m ;;; k" := (bind m (fun _ => k))
  (at level 61, right associativity).

Definition goto_close {A} : M A := fun s => GotoClose s.
Definition goto_error_close {A} : M A := fun s => GotoErrorClose s.
Definition fault {A} : M A := fun s => Fault s.
Definition no_fuel {A} : M A := fun _ => NoFuel.
Definition modify (f : state -> state) : M unit := fun s => Ret tt (f s).

(** A value read from the image: a fault when the read left it. *)
Definition read {A} (o : option A) : M A :=
  match o with
  | Some a => ret a
  | None => fault
  end.

(** What a call of one of the two recursive functions leaves. *)
Inductive outcome : Type :=
| Done (s : state)
| Crash (s : state)
| OutOfFuel.

Definition call (o : state -> outcome) : M unit :=
  fun s =>
    match o s with
    | Done s' => Ret tt s'
    | Crash s' => Fault s'
    | OutOfFuel => NoFuel
    end.

(** [ptr_ok]: [ptr >= base && ptr <= end], with the warning. *)
Definition ptr_ok (ptr base end_ : Z) (name exe : string) : M bool :=
  fun st =>
    let r := (base <=? ptr) && (ptr <=? end_) in
    Ret r (if negb r
           then warn ("Warning: fldd: bad pointer " ++ name ++ " for " ++ exe ++ LF) st
           else st).

(** ** The scan of one file and the search for one name *)

(** [asprintf(&fname, "%s/%s", dir, lib)] *)
Definition fname_of (dir lib : string) : string := dir ++ "/" ++ lib.
Arguments fname_of : simpl never.

Section Scan.
Variable W : world.
(** [copy_libs_for_exe] as the recursive calls see it. *)
Variable rec : string -> state -> outcome.

(** Pointer arithmetic on the machine: sums wrap at the pointer width. *)
Definition ptr_add (p k : Z) : Z := (p + k) mod 2 ^ ptr_bits (abi W).

(** [copy_libs_for_lib]: the loop over [lib_paths], head first.  [lib] is
    the string behind the pointer, [None] when it runs off the mapping;
    it is first read by [asprintf] (or by the warning). *)
Fixpoint lib_search (lib : option string) (lib_path : Storage) (st : state)
  : outcome :=
  match lib_path with
  | [] =>
      if arg_quiet st then Done st
      else match lib with
           | Some l =>
               Done (emit (Stderr ("Warning fldd: cannot find " ++ l
                                     ++ ", skipping..." ++ LF)) st)
           | None => Crash st
           end
  | d :: next =>
      match lib with
      | None => Crash st
      | Some l =>
          let fname := fname_of d l in
          if access_ok W fname then
            if storage_find (libs st) fname then Done st
            else rec fname (set_libs (storage_add (libs st) fname) st)
          else lib_search lib next st
      end
  end.

Definition copy_libs_for_lib (lib : option string) (st : state) : outcome :=
  lib_search lib (lib_paths st) st.

Section Image.
Variable exe : string.
Variable base end_ : Z.

(** [p->f] for a structure at [p]. *)
Definition get (m : image) (p : Z) (f : elf_abi -> field) : M Z :=
  read (load_le m base (p + f_off (f (abi W))) (f_len (f (abi W)))).

Definition ok (ptr : Z) (name : string) : M bool :=
  ptr_ok ptr base end_ name exe.

(** [strncmp(e_ident, ELFMAG, SELFMAG) == 0]: byte after byte, stopping
    at the first difference. *)
Fixpoint magic_eq (m : image) (a : Z) (magic : list Z) : M bool :=
  match magic with
  | [] => ret true
  | c :: cs =>
      b <- read (load_byte m base a) ;;
      if b =? c then magic_eq m (a + 1) cs else ret false
  end.

(** Lines 132-144.  [ebuf->e_phnum-- > 0] reads the field, writes it
    back one less (wrapping at 16 bits) and compares the old value;
    the image is mapped private and writable. *)
Fixpoint phdr_loop (n : nat) (m : image) (pbuf : Z) : M image :=
  match n with
  | O => no_fuel
  | S n' =>
      phnum <- get m base e_phnum ;;
      let m' := store_le m base (base + f_off (e_phnum (abi W)))
                         (f_len (e_phnum (abi W))) (phnum - 1) in
      if 0 <? phnum then
        k <- ok pbuf "pbuf" ;;
        if k then
          ty <- get m' pbuf p_type ;;
          (if ty =? PT_INTERP then
             off <- get m' pbuf p_offset ;;
             k2 <- ok (ptr_add base off) "base + pbuf->p_offset" ;;
             if negb k2 then goto_close
             else
               name <- read (cstring m' base (ptr_add base off)) ;;
               modify (fun st => set_libs (storage_add (libs st) name) st)
           else ret tt) ;;;
          phdr_loop n' m' (ptr_add pbuf (sizeof_Phdr (abi W)))
        else ret m'
      else ret m'
  end.

(** Lines 150-161: the first section loop.  It leaves [sbuf] where it
    stopped and [strbase] ([NULL] when no string table was met). *)
Fixpoint strtab_loop (sections : nat) (m : image) (sbuf : Z) : M (Z * Z) :=
  match sections with
  | O => ret (sbuf, NULL)
  | S n =>
      k <- ok sbuf "sbuf" ;;
      if k then
        ty <- get m sbuf sh_type ;;
        if ty =? SHT_STRTAB then
          off <- get m sbuf sh_offset ;;
          let strbase := ptr_add base off in
          k2 <- ok strbase "strbase" ;;
          if negb k2 then goto_close else ret (sbuf, strbase)
        else strtab_loop n m (ptr_add sbuf (sizeof_Shdr (abi W)))
      else ret (sbuf, NULL)
  end.

(** Lines 180-189: the DT_RPATH / DT_RUNPATH pass. *)
Fixpoint rpath_loop (n : nat) (m : image) (strbase size dbuf : Z) : M unit :=
  match n with
  | O => no_fuel
  | S n' =>
      if sizeof_Dyn (abi W) <=? size then
        k <- ok dbuf "dbuf" ;;
        if k then
          tag <- get m dbuf d_tag ;;
          (if (tag =? DT_RPATH) || (tag =? DT_RUNPATH) then
             v <- get m dbuf d_ptr ;;
             let searchpath := ptr_add strbase v in
             k2 <- ok searchpath "searchpath" ;;
             if negb k2 then goto_close
             else
               name <- read (cstring m base searchpath) ;;
               modify (fun st =>
                         set_lib_paths (storage_add (lib_paths st) name) st)
           else ret tt) ;;;
          rpath_loop n' m strbase (size - sizeof_Dyn (abi W))
                     (ptr_add dbuf (sizeof_Dyn (abi W)))
        else ret tt
      else ret tt
  end.

(** Lines 193-202: the DT_NEEDED pass. *)
Fixpoint needed_loop (n : nat) (m : image) (strbase size dbuf : Z) : M unit :=
  match n with
  | O => no_fuel
  | S n' =>
      if sizeof_Dyn (abi W) <=? size then
        k <- ok dbuf "dbuf" ;;
        if k then
          tag <- get m dbuf d_tag ;;
          (if tag =? DT_NEEDED then
             v <- get m dbuf d_ptr ;;
             let lib := ptr_add strbase v in
             k2 <- ok lib "lib" ;;
             if negb k2 then goto_close
             else call (copy_libs_for_lib (cstring m base lib))
           else ret tt) ;;;
          needed_loop n' m strbase (size - sizeof_Dyn (abi W))
                      (ptr_add dbuf (sizeof_Dyn (abi W)))
        else ret tt
      else ret tt
  end.

(** Enough turns for a loop that takes [sizeof(Elf_Dyn)] off [size]
    each time round. *)
Definition dyn_turns (size : Z) : nat :=
  S (Z.to_nat (size / sizeof_Dyn (abi W))).

(** Lines 166-205: the second section loop, which goes on from the
    [sbuf] the first one left. *)
Fixpoint dynamic_loop (sections : nat) (m : image) (strbase sbuf : Z)
  : M unit :=
  match sections with
  | O => ret tt
  | S n =>
      k <- ok sbuf "sbuf" ;;
      if k then
        ty <- get m sbuf sh_type ;;
        if ty =? SHT_NULL then ret tt
        else
          (if ty =? SHT_DYNAMIC then
             off <- get m sbuf sh_offset ;;
             let dbuf := ptr_add base off in
             k2 <- ok dbuf "dbuf" ;;
             if negb k2 then goto_close
             else
               size <- get m sbuf sh_size ;;
               rpath_loop (dyn_turns size) m strbase size dbuf ;;;
               off' <- get m sbuf sh_offset ;;
               size' <- get m sbuf sh_size ;;
               needed_loop (dyn_turns size') m strbase size'
                           (ptr_add base off')
           else ret tt) ;;;
          dynamic_loop n m strbase (ptr_add sbuf (sizeof_Shdr (abi W)))
      else ret tt
  end.

(** Lines 125-206, from the magic test to the last [goto close].
    [turns] bounds the program-header loop in the model: one more than
    the count the header holds. *)
Definition scan_image (m0 : image) : M unit :=
  elf <- magic_eq m0 base ELFMAG ;;
  if negb elf then
    modify (warn ("Warning fldd: " ++ exe
                    ++ " is not an ELF executable or library" ++ LF)) ;;;
    goto_close
  else
    let turns := match load_le m0 base (base + f_off (e_phnum (abi W)))
                               (f_len (e_phnum (abi W))) with
                 | Some v => S (Z.to_nat v)
                 | None => 1%nat
                 end in
    m <- phdr_loop turns m0 (ptr_add base (sizeof_Ehdr (abi W))) ;;
    shoff <- get m base e_shoff ;;
    let sbuf := ptr_add base shoff in
    k <- ok sbuf "sbuf" ;;
    if negb k then goto_close
    else
      shnum <- get m base e_shnum ;;
      found <- strtab_loop (Z.to_nat shnum) m sbuf ;;
      let '(sbuf', strbase) := found in
      if strbase =? NULL then goto_error_close
      else
        shnum' <- get m base e_shnum ;;
        dynamic_loop (Z.to_nat shnum') m strbase sbuf' ;;;
        goto_close.
End Image.

(** [copy_libs_for_exe], one level: [open], [fstat] (taken to succeed on
    an open descriptor), [mmap] (which fails on a file of length 0), the
    scan, and the two exit labels.  [munmap] and [close] leave no
    event. *)
Definition exe_body (exe : string) (st : state) : outcome :=
  match open_rdonly W exe with
  | None =>
      Done (warn ("Warning fldd: cannot open " ++ exe ++ ", skipping..." ++ LF) st)
  | Some m0 =>
      match m0 with
      | [] => Done (emit (Perror "copy libs") st)
      | _ :: _ =>
          let base := mmap_base W in
          let end_ := base + Z.of_nat (List.length m0) in
          match scan_image exe base end_ m0 st with
          | Ret _ s => Done s
          | GotoClose s => Done s
          | GotoErrorClose s => Done (emit (Perror "copy libs") s)
          | Fault s => Crash s
          | NoFuel => OutOfFuel
          end
      end
  end.
End Scan.

(** [copy_libs_for_exe] with a bound on the depth of the recursion through
    [copy_libs_for_lib]. *)
Fixpoint copy_libs_for_exe (W : world) (fuel : nat) : string -> state -> outcome :=
  match fuel with
  | O => fun _ _ => OutOfFuel
  | S n => exe_body W (copy_libs_for_exe W n)
  end.

(** ** Start-up and [main] *)

Definition default_lib_paths (W : world) : list string :=
  [ "/lib";
    "/lib/x86_64-linux-gnu";
    "/lib64";
    "/usr/lib";
    "/usr/lib/x86_64-linux-gnu";
    LIBDIR W;
    "/usr/local/lib" ].

(** [lib_paths_init]: [storage_add(&lib_paths, default_lib_paths[i])] for
    [i] going up. *)
Definition lib_paths_init (W : world) (st : state) : state :=
  set_lib_paths (fold_left storage_add (default_lib_paths W) (lib_paths st)) st.

Definition usage (st : state) : state :=
  emit (Stdout ("print a list of libraries used by program or store it in the file."
                  ++ LF))
       (emit (Stdout ("Usage: fldd program [file]" ++ LF)) st).

Inductive exit_status : Type :=
| Exited (code : Z) (s : state)
| Killed (s : state)          (* the scan faulted *)
| Unfinished.                  (* the model's recursion bound was reached *)

Definition initial : state := mkState [] [] false [].

Definition main (W : world) (fuel : nat) (argv : list string) : exit_status :=
  match argv with
  | [] | [_] =>
      Exited 1 (usage (emit (Stderr ("Error fldd: invalid arguments" ++ LF)) initial))
  | _ :: argv1 :: rest =>
      if String.eqb argv1 "--help" then Exited 0 (usage initial)
      else if negb (access_ok W argv1) then
        Exited 1 (emit (Stderr ("Error fldd: cannot access " ++ argv1 ++ LF)) initial)
      else
        let st1 := match getenv_FIREJAIL_QUIET W with
                   | Some q => if String.eqb q "yes" then set_quiet true initial
                               else initial
                   | None => initial
                   end in
        if String.eqb argv1 "-h" || String.eqb argv1 "--help"
           || String.eqb argv1 "-?"
        then Exited 0 (usage st1)
        else
          let argc := Z.of_nat (List.length argv) in
          let fd := if argc =? 3 then open_out W else STDOUT_FILENO in
          let st2 := if argc =? 3
                     then emit (OpenOut (nth 2 argv "")
                                        (Z.lor (Z.lor O_CREAT O_TRUNC) O_WRONLY)
                                        420 (open_out W)) st1
                     else st1 in
          if (argc =? 3) && (fd =? 0) then
            Exited 1 (usage (emit (Stderr ("Error fldd: invalid arguments" ++ LF)) st2))
          else
            match copy_libs_for_exe W fuel argv1 (lib_paths_init W st2) with
            | Done s =>
                let s' := storage_print (libs s) fd s in
                Exited 0 (if argc =? 3 then emit (CloseFd fd) s' else s')
            | Crash s => Killed s
            | OutOfFuel => Unfinished
            end
  end.

(** ** Definitions the statements use *)

(** A list of names with each name at its first listing only, the names
    of [seen] left out. *)
Fixpoint listed_once (seen : Storage) (l : list string) : list string :=
  match l with
  | [] => []
  | d :: r =>
      if storage_find seen d then listed_once seen r
      else d :: listed_once (d :: seen) r
  end.

(** What [copy_libs_for_lib] does with the first readable [fname]: nothing
    when it is in [libs] already, otherwise it is added and scanned. *)
Definition resolved (rec : string -> state -> outcome) (fname : string)
           (st : state) : outcome :=
  if storage_find (libs st) fname then Done st
  else rec fname (set_libs (storage_add (libs st) fname) st).

(** How many of the paths that exist are not in the list [l] yet: the
    measure that bounds the depth of the recursion. *)
Definition pending (W : world) (l : Storage) : nat :=
  List.length (filter (fun p => negb (storage_find l p)) (map fst (files W))).

(** A bound that is enough for any run of [main]: one more than the
    number of paths that exist. *)
Definition enough (W : world) : nat := S (List.length (files W)).

(** The [n] bytes from [a] are mapped bytes. *)
Definition mapped (m : image) (base a : Z) (n : nat) : Prop :=
  base <= a /\ (Z.to_nat (a - base) + n <= List.length m)%nat.

(** [I] holds of the state a computation leaves, however it leaves; [F]
    stands for a run that reached the recursion bound. *)
Definition holds (I : state -> Prop) (F : Prop) {A} (r : res A) : Prop :=
  match r with
  | Ret _ s | GotoClose s | GotoErrorClose s | Fault s => I s
  | NoFuel => F
  end.

Definition holds_out (I : state -> Prop) (F : Prop) (o : outcome) : Prop :=
  match o with
  | Done s | Crash s => I s
  | OutOfFuel => F
  end.

(** The turns left to the program-header loop cover the count the image
    holds. *)
Definition phdr_turns_ok (W : world) (base : Z) (m : image) (n : nat) : Prop :=
  match load_le m base (base + f_off (e_phnum (abi W)))
                (f_len (e_phnum (abi W))) with
  | Some v => (Z.to_nat v < n)%nat
  | None => (0 < n)%nat
  end.

(** [o'] is [o], unless [o] is a run that reached the bound. *)
Definition refines (o o' : outcome) : Prop := o = OutOfFuel \/ o' = o.

Definition rrefines {A} (r r' : res A) : Prop := r = NoFuel \/ r' = r.

(** Two states with the same two lists, the registry not empty; the
    quiet flag and the events may differ. *)
Definition sim (s s' : state) : Prop :=
  libs s = libs s' /\ lib_paths s = lib_paths s' /\ lib_paths s <> [].

Definition rsim {A} (r r' : res A) : Prop :=
  match r, r' with
  | Ret a s, Ret a' s' => a = a' /\ sim s s'
  | GotoClose s, GotoClose s' => sim s s'
  | GotoErrorClose s, GotoErrorClose s' => sim s s'
  | Fault s, Fault s' => sim s s'
  | NoFuel, NoFuel => True
  | _, _ => False
  end.

Definition osim (o o' : outcome) : Prop :=
  match o, o' with
  | Done s, Done s' => sim s s'
  | Crash s, Crash s' => sim s s'
  | OutOfFuel, OutOfFuel => True
  | _, _ => False
  end.


(** What [dprintf] was asked to write, call by call. *)
Definition dprintf_calls (tr : list event) : list (Z * string) :=
  flat_map (fun e => match e with
                     | Dprintf fd msg => [(fd, msg)]
                     | _ => []
                     end) tr.

(** A diagnostic: something written to the standard error stream. *)
Definition is_diag (e : event) : bool :=
  match e with
  | Stderr _ | Perror _ => true
  | _ => false
  end.

(** The same exit status, the same dependency list and the same lines
    handed to [dprintf]; the diagnostics may differ. *)
Definition same_result (e e' : exit_status) : Prop :=
  match e, e' with
  | Exited c s, Exited c' s' =>
      c = c' /\ libs s = libs s' /\
      dprintf_calls (trace s) = dprintf_calls (trace s')
  | Killed s, Killed s' => libs s = libs s'
  | Unfinished, Unfinished => True
  | _, _ => False
  end.

(** The world [W] with another value of FIREJAIL_QUIET. *)
Definition with_quiet (W : world) (q : option string) : world :=
  mkWorld (LP64 W) (LIBDIR W) (files W) (mmap_base W) q (open_out W).

(** The first directory of [paths] under which [name] is readable. *)
Definition first_hit (W : world) (name : string) (paths : Storage)
  : option string :=
  find (fun d => access_ok W (fname_of d name)) paths.

(** The four magic bytes as the file holds them. *)
Definition ELFMAG_bytes : list byte := map byte_of_Z ELFMAG.

(** The magic test on the bytes of the file, from its first byte. *)
Fixpoint magic_cmp (l : list byte) (magic : list Z) (st : state) {struct magic}
  : res bool :=
  match magic with
  | [] => Ret true st
  | c :: cs =>
      match l with
      | [] => Fault st
      | b :: r => if Z_of_byte b =? c then magic_cmp r cs st else Ret false st
      end
  end.

(** The invocations that [main] answers with exit status 1: fewer than
    two arguments, a program that is not readable, or three arguments and
    an [open] that returned 0. *)
Definition usage_error (W : world) (argv : list string) : bool :=
  match argv with
  | [] | [_] => true
  | _ :: argv1 :: _ =>
      negb (String.eqb argv1 "--help")
      && (negb (access_ok W argv1)
          || (negb (String.eqb argv1 "-h") && negb (String.eqb argv1 "-?")
              && (Z.of_nat (List.length argv) =? 3) && (open_out W =? 0)))
  end.

(** The program-header walk as [copy_libs_for_exe] starts it on the
    image [m0] of the file [exe]. *)
Definition phdr_walk (W : world) (exe : string) (m0 : image) : M image :=
  let base := mmap_base W in
  phdr_loop W exe base (base + Z.of_nat (List.length m0))
            (match load_le m0 base (base + f_off (e_phnum (abi W)))
                           (f_len (e_phnum (abi W))) with
             | Some v => S (Z.to_nat v)
             | None => 1%nat
             end)
            m0 (ptr_add W base (sizeof_Ehdr (abi W))).

(** [h->f] for the ELF header of the image [m]. *)
Definition header_field (W : world) (m : image) (f : elf_abi -> field)
  : option Z :=
  load_le m (mmap_base W) (mmap_base W + f_off (f (abi W))) (f_len (f (abi W))).

(** The state after [main] has read FIREJAIL_QUIET. *)
Definition quiet_state (W : world) : state :=
  match getenv_FIREJAIL_QUIET W with
  | Some q => if String.eqb q "yes" then set_quiet true initial else initial
  | None => initial
  end.

(** The state [main] hands to the scan of [argv[1]]: the output file
    opened when there are three arguments, the defaults registered. *)
Definition scan_start (W : world) (argv : list string) : state :=
  lib_paths_init W
    (if Z.of_nat (List.length argv) =? 3
     then emit (OpenOut (nth 2 argv "")
                        (Z.lor (Z.lor O_CREAT O_TRUNC) O_WRONLY)
                        420 (open_out W)) (quiet_state W)
     else quiet_state W).

(** ** Test images

    Little-endian ELF64 files put together from their parts: the header,
    the program headers, a block of NUL-terminated strings, the dynamic
    entries and the section headers, in this order. *)

Module Img.
Fixpoint le (n : nat) (v : Z) : list byte :=
  match n with
  | O => []
  | S n' => byte_of_Z v :: le n' (v / 256)
  end.

Definition zeros (n : nat) : list byte := repeat x00 n.

Definition cstr (s : string) : list byte :=
  (list_byte_of_string s ++ [x00])%list.

Definition strs (l : list string) : list byte := flat_map cstr l.

(** Where the [i]-th string of [strs l] starts. *)
Definition str_at (l : list string) (i : nat) : Z :=
  Z.of_nat (List.length (strs (firstn i l))).

Inductive sec : Type :=
| SecStr                       (* SHT_STRTAB over the string block *)
| SecDyn                       (* SHT_DYNAMIC over the dynamic entries *)
| SecRaw (ty off size : Z).

Definition ehdr (phnum shoff shnum : Z) : list byte :=
  (map byte_of_Z ELFMAG ++ zeros 12 ++ le 2 3 ++ le 2 62 ++ le 4 1 ++ le 8 0
     ++ le 8 64 ++ le 8 shoff ++ le 4 0 ++ le 2 64 ++ le 2 56 ++ le 2 phnum
     ++ le 2 64 ++ le 2 shnum ++ le 2 0)%list.

Definition phdr (ty off : Z) : list byte :=
  (le 4 ty ++ le 4 0 ++ le 8 off ++ zeros 40)%list.

Definition shdr (ty off size : Z) : list byte :=
  (le 4 0 ++ le 4 ty ++ le 8 0 ++ le 8 0 ++ le 8 off ++ le 8 size ++ zeros 24)%list.

Definition dyn (tag val : Z) : list byte := (le 8 tag ++ le 8 val)%list.

Record parts : Type := mkParts {
  interp : option nat;          (* PT_INTERP names this string of the block *)
  block : list string;
  dyns : list (Z * nat);        (* tag, and the string its value names *)
  secs : list sec
}.

Definition phnum (p : parts) : Z :=
  match interp p with Some _ => 1 | None => 0 end.
Definition str_off (p : parts) : Z := 64 + 56 * phnum p.
Definition dyn_off (p : parts) : Z :=
  str_off p + Z.of_nat (List.length (strs (block p))).
Definition sh_off (p : parts) : Z :=
  dyn_off p + 16 * Z.of_nat (List.length (dyns p)).

Definition build (p : parts) : image :=
  (ehdr (phnum p) (sh_off p) (Z.of_nat (List.length (secs p)))
     ++ match interp p with
        | Some i => phdr PT_INTERP (str_off p + str_at (block p) i)
        | None => []
        end
     ++ strs (block p)
     ++ flat_map (fun d => dyn (fst d) (str_at (block p) (snd d))) (dyns p)
     ++ flat_map (fun s =>
                    match s with
                    | SecStr =>
                        shdr SHT_STRTAB (str_off p)
                             (Z.of_nat (List.length (strs (block p))))
                    | SecDyn =>
                        shdr SHT_DYNAMIC (dyn_off p)
                             (16 * Z.of_nat (List.length (dyns p)))
                    | SecRaw ty off size => shdr ty off size
                    end) (secs p))%list.

Definition readable (bytes : image) : file := mkFile true true bytes.
End Img.

(** ** Test worlds *)

Module Demo.
Import Img.

(** A program with an interpreter, one library that is there and one
    that is not. *)
Definition prog : image :=
  build (mkParts (Some 1%nat)
                 [""; "/lib64/ld-linux-x86-64.so.2"; "libc.so.6"; "libgone.so.1"]
                 [(DT_NEEDED, 2%nat); (DT_NEEDED, 3%nat); (0, 0%nat)]
                 [SecStr; SecDyn]).

Definition libc : image :=
  build (mkParts None [""] [(0, 0%nat)] [SecStr; SecDyn]).

(** Two libraries that need each other. *)
Definition libA : image :=
  build (mkParts None [""; "libB.so"] [(DT_NEEDED, 1%nat); (0, 0%nat)]
                 [SecStr; SecDyn]).
Definition libB : image :=
  build (mkParts None [""; "libA.so"] [(DT_NEEDED, 1%nat); (0, 0%nat)]
                 [SecStr; SecDyn]).

(** A program that names a search directory of its own, after the
    library it needs. *)
Definition app : image :=
  build (mkParts None [""; "/opt/app/lib"; "libfoo.so"]
                 [(DT_NEEDED, 2%nat); (DT_RUNPATH, 1%nat); (0, 0%nat)]
                 [SecStr; SecDyn]).

(** The same parts with the section headers in two orders; a zeroed
    header ends each table. *)
Definition dyn_parts (order : list sec) : parts :=
  mkParts None [""; "libc.so.6"] [(DT_NEEDED, 1%nat); (0, 0%nat)] order.
Definition strtab_first : image :=
  build (dyn_parts [SecStr; SecDyn; SecRaw SHT_NULL 0 0]).
Definition dynamic_first : image :=
  build (dyn_parts [SecDyn; SecStr; SecRaw SHT_NULL 0 0]).

(** The same parts behind a section of another type (SHT_PROGBITS), the
    table being the end of the file, as linkers lay it out. *)
Definition progbits_first : image :=
  build (dyn_parts [SecRaw 1 0 0; SecStr; SecDyn]).

(** An ELF header that announces one program header, and nothing else:
    64 bytes. *)
Definition header_only : image := ehdr 1 0 0.

Definition fs : list (string * file) :=
  [ ("/usr/bin/prog", readable prog);
    ("/lib/x86_64-linux-gnu/libc.so.6", readable libc);
    ("/lib/libA.so", readable libA);
    ("/lib/libB.so", readable libB);
    ("/usr/bin/app", readable app);
    ("/opt/app/lib/libfoo.so", readable libc);
    ("/usr/lib/libfoo.so", readable libc);
    ("/lib/libfoo.so", readable libc);
    ("/tmp/strtab_first", readable strtab_first);
    ("/tmp/dynamic_first", readable dynamic_first);
    ("/tmp/progbits_first", readable progbits_first);
    ("/tmp/header_only", readable header_only);
    ("/tmp/empty", readable []) ].

(** A program with an interpreter and no section headers at all. *)
Definition no_sections : image :=
  build (mkParts (Some 1%nat) [""; "/lib64/ld-linux-x86-64.so.2"] [] []).

Definition stripped_world : world :=
  mkWorld true "/usr/lib" [("/usr/bin/stripped", readable no_sections)]
          139637976727552 (Some "yes") 3.

(** A build with [LIBDIR] set to /usr/lib, which the defaults array
    then names twice, and a library that is readable under /usr/lib and
    under /usr/lib/x86_64-linux-gnu. *)
Definition distro : world :=
  mkWorld true "/usr/lib"
          [("/usr/lib/libx.so", readable libc);
           ("/usr/lib/x86_64-linux-gnu/libx.so", readable libc)]
          139637976727552 None 3.

Definition world_with (quiet : option string) (out : Z) : world :=
  mkWorld true "/usr/local/lib" fs 139637976727552 quiet out.

Definition W : world := world_with None 3.
End Demo.

(** * Properties *)

(** ** Storage *)

Lemma storage_find_In (ptr : Storage) (name : string) :
  storage_find ptr name = true <-> In name ptr.
Proof.
  induction ptr as [|n next IH]; simpl.
  - split; [discriminate | tauto].
  - destruct (String.eqb n name) eqn:E.
    + apply String.eqb_eq in E. tauto.
    + apply String.eqb_neq in E. rewrite IH. split; [tauto|].
      intros [H|H]; [contradiction | assumption].
Qed.

Lemma storage_find_not_In (ptr : Storage) (name : string) :
  storage_find ptr name = false <-> ~ In name ptr.
Proof.
  rewrite <- storage_find_In. destruct (storage_find ptr name); split;
    congruence.
Qed.

Lemma storage_add_present (head : Storage) (name : string) :
  In name head -> storage_add head name = head.
Proof.
  intros H. unfold storage_add.
  apply storage_find_In in H. now rewrite H.
Qed.

Lemma storage_add_fresh (head : Storage) (name : string) :
  ~ In name head -> storage_add head name = name :: head.
Proof.
  intros H. unfold storage_add.
  apply storage_find_not_In in H. now rewrite H.
Qed.

Lemma storage_add_In (head : Storage) (name x : string) :
  In x (storage_add head name) <-> x = name \/ In x head.
Proof.
  unfold storage_add. destruct (storage_find head name) eqn:E.
  - apply storage_find_In in E. split; [tauto|]. intros [->|H]; assumption.
  - simpl. split; intros [H|H]; auto.
Qed.

Lemma storage_add_incl (head : Storage) (name : string) :
  incl head (storage_add head name).
Proof. intros x H. apply storage_add_In. now right. Qed.

Lemma storage_add_NoDup (head : Storage) (name : string) :
  NoDup head -> NoDup (storage_add head name).
Proof.
  intros H. unfold storage_add. destruct (storage_find head name) eqn:E.
  - assumption.
  - constructor; [now apply storage_find_not_In | assumption].
Qed.

Lemma fold_add_NoDup (names : list string) (head : Storage) :
  NoDup head -> NoDup (fold_left storage_add names head).
Proof.
  revert head. induction names as [|n names IH]; simpl; intros head H.
  - assumption.
  - apply IH, storage_add_NoDup, H.
Qed.

(** A run of adds puts new nodes in front of the old list and leaves the
    old list as it was. *)
Lemma fold_add_split (names : list string) (head : Storage) :
  exists pre,
    fold_left storage_add names head = (pre ++ head)%list /\
    forall x, In x pre -> In x names /\ ~ In x head.
Proof.
  revert head. induction names as [|n names IH]; simpl; intros head.
  - exists []. split; [reflexivity | intros x []].
  - destruct (IH (storage_add head n)) as (pre & E & Hpre).
    unfold storage_add in *. destruct (storage_find head n) eqn:F.
    + exists pre. split; [assumption|].
      intros x Hx. destruct (Hpre x Hx). tauto.
    + exists (pre ++ [n])%list. split.
      * rewrite E, <- app_assoc. reflexivity.
      * intros x Hx. apply in_app_or in Hx. destruct Hx as [Hx|[<-|[]]].
        -- destruct (Hpre x Hx) as [H1 H2]. split; [tauto|].
           intros H. apply H2. now right.
        -- split; [now left | now apply storage_find_not_In].
Qed.

Lemma fold_add_In (names : list string) (head : Storage) (x : string) :
  In x (fold_left storage_add names head) <-> In x names \/ In x head.
Proof.
  revert head. induction names as [|n names IH]; simpl; intros head.
  - tauto.
  - rewrite IH, storage_add_In. split; intros H; intuition auto.
Qed.

Lemma fold_add_listed_once (names : list string) (head : Storage) :
  forall seen,
    (forall x, In x seen <-> In x head) ->
    fold_left storage_add names head = (rev (listed_once seen names) ++ head)%list.
Proof.
  revert head. induction names as [|n names IH]; simpl; intros head seen Hs.
  - reflexivity.
  - unfold storage_add at 2.
    destruct (storage_find head n) eqn:F.
    + assert (storage_find seen n = true) as ->.
      { apply storage_find_In, Hs, storage_find_In, F. }
      now apply IH.
    + assert (storage_find seen n = false) as ->.
      { apply storage_find_not_In. rewrite Hs. now apply storage_find_not_In. }
      simpl. rewrite <- app_assoc. simpl.
      apply IH. intros x. simpl. rewrite Hs. tauto.
Qed.

(** ** The search over the registry *)

Section Search.
Variable W : world.
Variable rec : string -> state -> outcome.

Lemma lib_search_skip (name : string) (pre rest : Storage) (st : state) :
  (forall d, In d pre -> access_ok W (fname_of d name) = false) ->
  lib_search W rec (Some name) (pre ++ rest)%list st
  = lib_search W rec (Some name) rest st.
Proof.
  induction pre as [|d pre IH]; simpl; intros H.
  - reflexivity.
  - rewrite (H d) by now left. apply IH. intros d' Hd'. apply H. now right.
Qed.

Lemma lib_search_hit (name d : string) (post : Storage) (st : state) :
  access_ok W (fname_of d name) = true ->
  lib_search W rec (Some name) (d :: post) st
  = resolved rec (fname_of d name) st.
Proof. intros H. simpl. rewrite H. reflexivity. Qed.

Lemma lib_search_first_hit (name d : string) (pre post : Storage) (st : state) :
  (forall d', In d' pre -> access_ok W (fname_of d' name) = false) ->
  access_ok W (fname_of d name) = true ->
  lib_search W rec (Some name) (pre ++ d :: post)%list st
  = resolved rec (fname_of d name) st.
Proof.
  intros Hpre Hd. rewrite lib_search_skip by assumption.
  now apply lib_search_hit.
Qed.

Lemma lib_paths_init_In (d : string) :
  In d (lib_paths (lib_paths_init W initial)) <-> In d (default_lib_paths W).
Proof.
  unfold lib_paths_init, initial. cbn [lib_paths set_lib_paths].
  rewrite fold_add_In. simpl. tauto.
Qed.
End Search.

(** The scan of the program [Demo.app], which needs libfoo.so and names
    /opt/app/lib as its search directory (in this order in its dynamic
    section), in any world and from any state: the directory is put on
    the registry first, then the name is searched. *)
Lemma scan_of_app (W : world) (rec : string -> state -> outcome) (st : state) :
  LP64 W = true ->
  mmap_base W = mmap_base Demo.W ->
  open_rdonly W "/usr/bin/app" = Some Demo.app ->
  exe_body W rec "/usr/bin/app" st
  = copy_libs_for_lib W rec (Some "libfoo.so")
      (set_lib_paths (storage_add (lib_paths st) "/opt/app/lib") st).
Proof.
  intros HL HB HO.
  transitivity
    (match copy_libs_for_lib W rec (Some "libfoo.so")
             (set_lib_paths (storage_add (lib_paths st) "/opt/app/lib") st) with
     | Done s => Done s
     | Crash s => Crash s
     | OutOfFuel => OutOfFuel
     end).
  - unfold exe_body. rewrite HO.
    destruct W as [lp libdir fs base q out].
    cbn [LP64 mmap_base] in HL, HB. subst lp base.
    cbv - [storage_add copy_libs_for_lib access_ok].
    destruct (copy_libs_for_lib _ _ _ _); reflexivity.
  - destruct (copy_libs_for_lib _ _ _ _); reflexivity.
Qed.

(** C4.  The search takes the directories in list order, which is the
    newest first, and stops at the first one where [dir/name] is
    readable.  So once a directory [D] that is no default has been added
    on top of the defaults, a name readable under [D] is taken from [D],
    whatever the default directories hold.  For the program [Demo.app],
    which declares /opt/app/lib and needs libfoo.so, this is what the
    scan does in every world where /opt/app/lib/libfoo.so is readable,
    whatever else exists there and from any registry that has not got
    the directory: the library is resolved to the path under the declared
    directory; and the whole run on it, with libfoo.so readable under
    /usr/lib and /lib too, prints that path. *)
Theorem search_priority :
  (forall head d, ~ In d head -> storage_add head d = d :: head) /\
  (forall W rec name pre d post st,
      lib_paths st = (pre ++ d :: post)%list ->
      (forall d', In d' pre -> access_ok W (fname_of d' name) = false) ->
      access_ok W (fname_of d name) = true ->
      copy_libs_for_lib W rec (Some name) st
      = resolved rec (fname_of d name) st) /\
  (forall W rec name D st,
      ~ In D (default_lib_paths W) ->
      lib_paths st = lib_paths (lib_paths_init W initial) ->
      access_ok W (fname_of D name) = true ->
      let st' := set_lib_paths (storage_add (lib_paths st) D) st in
      lib_paths st' = D :: lib_paths st /\
      copy_libs_for_lib W rec (Some name) st'
      = resolved rec (fname_of D name) st') /\
  (forall W rec st,
      LP64 W = true ->
      mmap_base W = mmap_base Demo.W ->
      open_rdonly W "/usr/bin/app" = Some Demo.app ->
      access_ok W (fname_of "/opt/app/lib" "libfoo.so") = true ->
      ~ In "/opt/app/lib" (lib_paths st) ->
      exe_body W rec "/usr/bin/app" st
      = resolved rec (fname_of "/opt/app/lib" "libfoo.so")
                 (set_lib_paths ("/opt/app/lib" :: lib_paths st) st)) /\
  main Demo.W (enough Demo.W) ["fldd"; "/usr/bin/app"]
  = Exited 0
      (mkState ["/opt/app/lib/libfoo.so"]
               ("/opt/app/lib" :: lib_paths (lib_paths_init Demo.W initial))
               false
               [Dprintf 1 ("/opt/app/lib/libfoo.so" ++ LF)]).
Proof.
  split; [|split; [|split; [|split]]].
  - intros head d H. now apply storage_add_fresh.
  - intros W rec name pre d post st E Hpre Hd. unfold copy_libs_for_lib.
    rewrite E. now apply lib_search_first_hit.
  - intros W rec name D st HD E Hacc st'.
    assert (lib_paths st' = D :: lib_paths st) as E'.
    { unfold st'. cbn [lib_paths set_lib_paths]. apply storage_add_fresh.
      rewrite E. intros H. apply HD. now apply lib_paths_init_In. }
    split; [assumption|].
    unfold copy_libs_for_lib. rewrite E'.
    now apply lib_search_hit.
  - intros W rec st HL HB HO HA HD.
    rewrite scan_of_app by assumption.
    rewrite storage_add_fresh by assumption.
    unfold copy_libs_for_lib. cbn [set_lib_paths lib_paths].
    now apply lib_search_hit.
  - vm_compute. reflexivity.
Qed.

Lemma lib_paths_init_initial (W : world) :
  lib_paths (lib_paths_init W initial)
  = fold_left storage_add (default_lib_paths W) [].
Proof. reflexivity. Qed.

(** The two ends of the registry after start-up, whatever [LIBDIR] is. *)
Lemma lib_paths_init_ends (W : world) :
  hd_error (fold_left storage_add (default_lib_paths W) [])
  = Some "/usr/local/lib" /\
  last (fold_left storage_add (default_lib_paths W) []) "" = "/lib".
Proof.
  unfold default_lib_paths.
  destruct (in_dec string_dec (LIBDIR W)
                   ["/lib"; "/lib/x86_64-linux-gnu"; "/lib64"; "/usr/lib";
                    "/usr/lib/x86_64-linux-gnu"; "/usr/local/lib"]) as [H|H].
  - simpl in H.
    repeat (destruct H as [H|H]; [rewrite <- H; split; reflexivity|]).
    destruct H.
  - change (fold_left storage_add _ [])
      with (storage_add
              (storage_add ["/usr/lib/x86_64-linux-gnu"; "/usr/lib"; "/lib64";
                            "/lib/x86_64-linux-gnu"; "/lib"] (LIBDIR W))
              "/usr/local/lib").
    rewrite (storage_add_fresh _ (LIBDIR W)) by (simpl in *; tauto).
    rewrite storage_add_fresh.
    + split; reflexivity.
    + simpl in *. intros [E|[E|[E|[E|[E|[E|[]]]]]]];
        try discriminate E. apply H. rewrite E. tauto.
Qed.

(** C10, amended.  After start-up the registry is the defaults array
    backwards, a directory that the array names twice (as LIBDIR may be)
    standing where it was first named, with /usr/local/lib at the head
    and /lib at the end.  So a name readable in several default
    directories is taken from the one whose first listing comes after
    the first listings of all the others. *)
Theorem defaults_searched_in_reverse (W : world) :
  lib_paths (lib_paths_init W initial)
  = rev (listed_once [] (default_lib_paths W)) /\
  hd_error (lib_paths (lib_paths_init W initial)) = Some "/usr/local/lib" /\
  last (lib_paths (lib_paths_init W initial)) "" = "/lib" /\
  (forall rec name l1 d l2 st,
      default_lib_paths W = (l1 ++ d :: l2)%list ->
      ~ In d l1 ->
      access_ok W (fname_of d name) = true ->
      (forall d', In d' l2 -> access_ok W (fname_of d' name) = true ->
                  In d' (d :: l1)) ->
      lib_paths st = lib_paths (lib_paths_init W initial) ->
      copy_libs_for_lib W rec (Some name) st
      = resolved rec (fname_of d name) st).
Proof.
  split; [|split; [|split]].
  - rewrite lib_paths_init_initial.
    rewrite (fold_add_listed_once (default_lib_paths W) [] []) by tauto.
    apply app_nil_r.
  - rewrite lib_paths_init_initial. apply lib_paths_init_ends.
  - rewrite lib_paths_init_initial. apply lib_paths_init_ends.
  - intros rec name l1 d l2 st E Hd Hacc Hlater Hst.
    unfold copy_libs_for_lib. rewrite Hst, lib_paths_init_initial, E.
    rewrite fold_left_app. cbn [fold_left].
    rewrite (storage_add_fresh _ d).
    2:{ rewrite fold_add_In. simpl. tauto. }
    destruct (fold_add_split l2 (d :: fold_left storage_add l1 []))
      as (pre & -> & Hpre).
    apply lib_search_first_hit; [|assumption].
    intros d' Hd'. destruct (Hpre d' Hd') as [Hin Hnot].
    destruct (access_ok W (fname_of d' name)) eqn:A; [|reflexivity].
    exfalso. apply Hnot. destruct (Hlater d' Hin A) as [<-|H1].
    + now left.
    + right. rewrite fold_add_In. now left.
Qed.

(** ** The image: reading back what was written *)

Lemma Z_of_byte_range (b : byte) : 0 <= Z_of_byte b < 256.
Proof.
  unfold Z_of_byte. pose proof (Byte.to_N_bounded b) as H.
  split; [apply N2Z.is_nonneg | lia].
Qed.

Lemma Z_of_byte_of_Z (v : Z) : Z_of_byte (byte_of_Z v) = v mod 256.
Proof.
  unfold Z_of_byte, byte_of_Z.
  pose proof (Z.mod_pos_bound v 256 ltac:(lia)) as Hb.
  destruct (Byte.of_N (Z.to_N (v mod 256))) as [b|] eqn:E.
  - apply Byte.to_of_N in E. rewrite E. apply Z2N.id. lia.
  - apply Byte.of_N_None_iff in E. lia.
Qed.

Lemma upd_length (m : image) (i : nat) (b : byte) :
  List.length (upd m i b) = List.length m.
Proof.
  revert i. induction m as [|h t IH]; intros [|i]; simpl; auto.
Qed.

Lemma nth_error_upd_same (m : image) (i : nat) (b : byte) :
  (i < List.length m)%nat -> nth_error (upd m i b) i = Some b.
Proof.
  revert i. induction m as [|h t IH]; intros [|i]; simpl; intros H;
    try lia; auto. apply IH. lia.
Qed.

Lemma nth_error_upd_other (m : image) (i j : nat) (b : byte) :
  i <> j -> nth_error (upd m i b) j = nth_error m j.
Proof.
  revert i j. induction m as [|h t IH]; intros [|i] [|j]; simpl; intros H;
    try reflexivity; try congruence. apply IH. congruence.
Qed.

Lemma load_byte_Some (m : image) (base a : Z) :
  mapped m base a 1 -> exists b, load_byte m base a = Some b.
Proof.
  intros [H1 H2]. unfold load_byte.
  destruct (base <=? a) eqn:E; [|lia].
  destruct (nth_error m (Z.to_nat (a - base))) as [b|] eqn:N.
  - eexists. reflexivity.
  - apply nth_error_None in N. lia.
Qed.

Lemma load_byte_mapped (m : image) (base a v : Z) :
  load_byte m base a = Some v -> mapped m base a 1.
Proof.
  unfold load_byte, mapped. destruct (base <=? a) eqn:E; [|discriminate].
  destruct (nth_error m (Z.to_nat (a - base))) as [b|] eqn:N; [|discriminate].
  intros _. split; [lia|].
  assert (Z.to_nat (a - base) < List.length m)%nat.
  { apply nth_error_Some. congruence. }
  lia.
Qed.

Lemma load_le_S (m : image) (base a : Z) (n : nat) :
  load_le m base a (S n)
  = match load_byte m base a, load_le m base (a + 1) n with
    | Some b, Some r => Some (b + 256 * r)
    | _, _ => None
    end.
Proof. reflexivity. Qed.

Lemma load_le_mapped (m : image) (base : Z) (n : nat) :
  forall a v, load_le m base a (S n) = Some v -> mapped m base a (S n).
Proof.
  induction n as [|n IH]; intros a v H; rewrite load_le_S in H.
  - destruct (load_byte m base a) eqn:B; [|discriminate].
    now apply load_byte_mapped in B.
  - destruct (load_byte m base a) eqn:B; [|discriminate].
    destruct (load_le m base (a + 1) (S n)) eqn:L; [|discriminate].
    apply load_byte_mapped in B. apply IH in L.
    destruct B as [B1 B2], L as [L1 L2]. split; [assumption|].
    replace (Z.to_nat (a + 1 - base)) with (S (Z.to_nat (a - base))) in L2
      by lia. lia.
Qed.

Lemma load_le_range (m : image) (base : Z) (n : nat) :
  forall a v, load_le m base a n = Some v -> 0 <= v < 256 ^ Z.of_nat n.
Proof.
  induction n as [|n IH]; intros a v H; [|rewrite load_le_S in H].
  - injection H as <-. simpl. lia.
  - destruct (load_byte m base a) as [b|] eqn:B; [|discriminate].
    destruct (load_le m base (a + 1) n) as [r|] eqn:L; [|discriminate].
    assert (v = b + 256 * r) as -> by congruence. apply IH in L.
    assert (0 <= b < 256) as Hb.
    { unfold load_byte in B. destruct (base <=? a); [|discriminate].
      destruct (nth_error m _); [|discriminate]. simpl in B.
      injection B as <-. apply Z_of_byte_range. }
    rewrite Nat2Z.inj_succ, Z.pow_succ_r by lia.
    set (X := 256 ^ Z.of_nat n) in *. lia.
Qed.

Lemma load_byte_upd_same (m : image) (base a : Z) (b : byte) :
  mapped m base a 1 ->
  load_byte (upd m (Z.to_nat (a - base)) b) base a = Some (Z_of_byte b).
Proof.
  intros [H1 H2]. unfold load_byte.
  destruct (base <=? a) eqn:E; [|lia].
  rewrite nth_error_upd_same by lia. reflexivity.
Qed.

Lemma load_byte_upd_other (m : image) (base a a' : Z) (b : byte) :
  base <= a -> a <> a' ->
  load_byte (upd m (Z.to_nat (a - base)) b) base a' = load_byte m base a'.
Proof.
  intros H1 H2. unfold load_byte.
  destruct (base <=? a') eqn:E; [|reflexivity].
  rewrite nth_error_upd_other by lia. reflexivity.
Qed.

Lemma store_le_length (n : nat) :
  forall m base a v, List.length (store_le m base a n v) = List.length m.
Proof.
  induction n as [|n IH]; intros m base a v; cbn [store_le].
  - reflexivity.
  - rewrite IH. apply upd_length.
Qed.

Lemma load_byte_store_le_other (n : nat) :
  forall m base a a' v,
    base <= a -> a' < a ->
    load_byte (store_le m base a n v) base a' = load_byte m base a'.
Proof.
  induction n as [|n IH]; intros m base a a' v H1 H2; cbn [store_le].
  - reflexivity.
  - rewrite IH by lia. apply load_byte_upd_other; lia.
Qed.

Lemma load_le_store_le (n : nat) :
  forall m base a v,
    mapped m base a n ->
    load_le (store_le m base a n v) base a n = Some (v mod 256 ^ Z.of_nat n).
Proof.
  induction n as [|n IH]; intros m base a v [H1 H2].
  - simpl. now rewrite Z.mod_1_r.
  - rewrite load_le_S. cbn [store_le].
    rewrite load_byte_store_le_other by lia.
    rewrite load_byte_upd_same by (split; lia).
    rewrite IH.
    2:{ split; [lia|]. rewrite upd_length.
        replace (Z.to_nat (a + 1 - base)) with (S (Z.to_nat (a - base))) by lia.
        lia. }
    rewrite Z_of_byte_of_Z. f_equal.
    rewrite Nat2Z.inj_succ, Z.pow_succ_r by lia.
    rewrite Z.rem_mul_r by lia. reflexivity.
Qed.

(** ** Invariants of the scan

    A property of the state that the four kinds of update keep (a line on
    the error stream, a [perror], an add to either list) is kept by the
    whole of [copy_libs_for_exe].  [F] says what the statement makes of a
    run that reaches the recursion bound: [True] to leave such runs out,
    [False] to show there are none. *)

Section Invariant.
Variable W : world.
Variable I : state -> Prop.
Variable F : Prop.

Hypothesis I_stderr :
  forall msg st, I st -> arg_quiet st = false -> I (emit (Stderr msg) st).
Hypothesis I_perror : forall tag st, I st -> I (emit (Perror tag) st).
Hypothesis I_libs :
  forall name st, I st -> I (set_libs (storage_add (libs st) name) st).
Hypothesis I_paths :
  forall name st, I st -> I (set_lib_paths (storage_add (lib_paths st) name) st).

Local Abbreviation holds := (holds I F).
Local Abbreviation holds_out := (holds_out I F).

Lemma I_warn msg st : I st -> I (warn msg st).
Proof. intros H. unfold warn. destruct (arg_quiet st) eqn:Q; auto. Qed.

Lemma holds_bind {A B} (m : M A) (k : A -> M B) st :
  holds (m st) -> (forall a s, I s -> holds (k a s)) -> holds (bind m k st).
Proof. unfold bind. destruct (m st); simpl; auto. Qed.

Lemma bind_read {A B} (o : option A) (k : A -> M B) st :
  bind (read o) k st = match o with Some a => k a st | None => Fault st end.
Proof. destruct o; reflexivity. Qed.

Lemma holds_read {A} (o : option A) st : I st -> holds (read o st).
Proof. destruct o; simpl; auto. Qed.

Lemma holds_ptr_ok ptr base end_ name exe st :
  I st -> holds (ptr_ok ptr base end_ name exe st).
Proof.
  intros H. unfold ptr_ok. simpl.
  destruct (negb _); auto using I_warn.
Qed.

Lemma holds_call o st : holds_out (o st) -> holds (call o st).
Proof. unfold call. destruct (o st); simpl; auto. Qed.

Variable rec : string -> state -> outcome.
Hypothesis rec_ok :
  forall fname st,
    I st -> access_ok W fname = true -> storage_find (libs st) fname = false ->
    holds_out (rec fname (set_libs (storage_add (libs st) fname) st)).

Lemma lib_search_holds lib lib_path st :
  I st -> holds_out (lib_search W rec lib lib_path st).
Proof.
  intros H. induction lib_path as [|d next IH]; cbn [lib_search].
  - destruct (arg_quiet st) eqn:Q; [exact H|].
    destruct lib; simpl; auto.
  - destruct lib as [l|]; [|exact H].
    destruct (access_ok W (fname_of d l)) eqn:A; [|exact IH].
    destruct (storage_find (libs st) (fname_of d l)) eqn:Fd; [exact H|].
    now apply rec_ok.
Qed.

Section Image.
Variable exe : string.
Variable base end_ : Z.

Ltac bind_as L x :=
  apply holds_bind; [apply L; assumption | intros x ? ?].

Lemma get_holds m p f st : I st -> holds (get W base m p f st).
Proof. intros H. unfold get. now apply holds_read. Qed.

Lemma ok_holds ptr name st : I st -> holds (ok exe base end_ ptr name st).
Proof. apply holds_ptr_ok. Qed.

Lemma magic_eq_holds magic : forall m a st,
    I st -> holds (magic_eq base m a magic st).
Proof.
  induction magic as [|c cs IH]; intros m a st H; cbn [magic_eq].
  - exact H.
  - rewrite bind_read. destruct (load_byte m base a) as [b|]; [|exact H].
    destruct (b =? c); [now apply IH | exact H].
Qed.

Local Abbreviation phdr_turns_ok := (phdr_turns_ok W base).

Lemma e_phnum_len : f_len (e_phnum (abi W)) = 2%nat.
Proof. unfold abi. destruct (LP64 W); reflexivity. Qed.

Lemma phdr_loop_holds n : forall m pbuf st,
    phdr_turns_ok m n -> I st ->
    holds (phdr_loop W exe base end_ n m pbuf st).
Proof.
  induction n as [|n IH]; intros m pbuf st Hn H.
  - unfold phdr_turns_ok in Hn.
    destruct (load_le _ _ _ _); lia.
  - cbn [phdr_loop]. unfold get at 1. rewrite bind_read.
    unfold phdr_turns_ok in Hn.
    destruct (load_le m base (base + f_off (e_phnum (abi W)))
                      (f_len (e_phnum (abi W)))) as [v|] eqn:E;
      [|exact H].
    destruct (0 <? v) eqn:Hv; [|exact H].
    bind_as ok_holds k. destruct k; [|assumption].
    bind_as get_holds ty.
    apply holds_bind.
    + destruct (ty =? PT_INTERP); [|assumption].
      bind_as get_holds off. bind_as ok_holds k2.
      destruct (negb k2); [assumption|].
      bind_as @holds_read name. simpl. now apply I_libs.
    + intros _ s' Hs'. apply IH; [|assumption].
      unfold phdr_turns_ok.
      pose proof (load_le_range _ _ _ _ _ E) as R.
      rewrite e_phnum_len in *.
      rewrite load_le_store_le.
      2:{ eapply load_le_mapped, E. }
      change (256 ^ Z.of_nat 2) with 65536 in *.
      apply Z.ltb_lt in Hv.
      rewrite Z.mod_small by lia. lia.
Qed.

Lemma strtab_loop_holds sections : forall m sbuf st,
    I st -> holds (strtab_loop W exe base end_ sections m sbuf st).
Proof.
  induction sections as [|n IH]; intros m sbuf st H; cbn [strtab_loop].
  - exact H.
  - bind_as ok_holds k. destruct k; [|assumption].
    bind_as get_holds ty.
    destruct (ty =? SHT_STRTAB); [|now apply IH].
    bind_as get_holds off. bind_as ok_holds k2.
    destruct (negb k2); assumption.
Qed.

Lemma sizeof_Dyn_pos : 0 < sizeof_Dyn (abi W).
Proof. unfold abi. destruct (LP64 W); simpl; lia. Qed.

Lemma dyn_turns_step (size : Z) (n : nat) :
  (Z.to_nat (size / sizeof_Dyn (abi W)) < S n)%nat ->
  sizeof_Dyn (abi W) <= size ->
  (Z.to_nat ((size - sizeof_Dyn (abi W)) / sizeof_Dyn (abi W)) < n)%nat.
Proof.
  pose proof sizeof_Dyn_pos as P. intros H1 H2.
  replace (size - sizeof_Dyn (abi W))
    with (size + (-1) * sizeof_Dyn (abi W)) by lia.
  rewrite Z.div_add by lia.
  assert (1 <= size / sizeof_Dyn (abi W)).
  { apply Z.div_le_lower_bound; lia. }
  lia.
Qed.

Lemma rpath_loop_holds n : forall m strbase size dbuf st,
    (Z.to_nat (size / sizeof_Dyn (abi W)) < n)%nat -> I st ->
    holds (rpath_loop W exe base end_ n m strbase size dbuf st).
Proof.
  induction n as [|n IH]; intros m strbase size dbuf st Hn H.
  - lia.
  - cbn [rpath_loop].
    destruct (sizeof_Dyn (abi W) <=? size) eqn:Hs; [|exact H].
    apply Z.leb_le in Hs.
    bind_as ok_holds k. destruct k; [|assumption].
    bind_as get_holds tag.
    apply holds_bind.
    + destruct ((tag =? DT_RPATH) || (tag =? DT_RUNPATH)); [|assumption].
      bind_as get_holds v. bind_as ok_holds k2.
      destruct (negb k2); [assumption|].
      bind_as @holds_read name. simpl. now apply I_paths.
    + intros _ s' Hs'. apply IH; [|assumption].
      now apply dyn_turns_step.
Qed.

Lemma needed_loop_holds n : forall m strbase size dbuf st,
    (Z.to_nat (size / sizeof_Dyn (abi W)) < n)%nat -> I st ->
    holds (needed_loop W rec exe base end_ n m strbase size dbuf st).
Proof.
  induction n as [|n IH]; intros m strbase size dbuf st Hn H.
  - lia.
  - cbn [needed_loop].
    destruct (sizeof_Dyn (abi W) <=? size) eqn:Hs; [|exact H].
    apply Z.leb_le in Hs.
    bind_as ok_holds k. destruct k; [|assumption].
    bind_as get_holds tag.
    apply holds_bind.
    + destruct (tag =? DT_NEEDED); [|assumption].
      bind_as get_holds v. bind_as ok_holds k2.
      destruct (negb k2); [assumption|].
      apply holds_call. now apply lib_search_holds.
    + intros _ s' Hs'. apply IH; [|assumption].
      now apply dyn_turns_step.
Qed.

Lemma dyn_turns_enough size :
  (Z.to_nat (size / sizeof_Dyn (abi W)) < dyn_turns W size)%nat.
Proof. unfold dyn_turns. lia. Qed.

Lemma dynamic_loop_holds sections : forall m strbase sbuf st,
    I st ->
    holds (dynamic_loop W rec exe base end_ sections m strbase sbuf st).
Proof.
  induction sections as [|n IH]; intros m strbase sbuf st H;
    cbn [dynamic_loop].
  - exact H.
  - bind_as ok_holds k. destruct k; [|assumption].
    bind_as get_holds ty.
    destruct (ty =? SHT_NULL); [assumption|].
    apply holds_bind; [|intros _ s' Hs'; now apply IH].
    destruct (ty =? SHT_DYNAMIC); [|assumption].
    bind_as get_holds off. bind_as ok_holds k2.
    destruct (negb k2); [assumption|].
    bind_as get_holds size.
    apply holds_bind.
    + apply rpath_loop_holds; [apply dyn_turns_enough | assumption].
    + intros _ s' Hs'.
      bind_as get_holds off'. bind_as get_holds size'.
      apply needed_loop_holds; [apply dyn_turns_enough | assumption].
Qed.

Lemma scan_image_holds m0 st :
  I st -> holds (scan_image W rec exe base end_ m0 st).
Proof.
  intros H. unfold scan_image.
  bind_as magic_eq_holds elf.
  destruct (negb elf).
  { apply holds_bind; [simpl; now apply I_warn | intros; assumption]. }
  apply holds_bind.
  - apply phdr_loop_holds; [|assumption].
    unfold phdr_turns_ok. destruct (load_le _ _ _ _); lia.
  - intros m s' Hs'.
    bind_as get_holds shoff. bind_as ok_holds k.
    destruct (negb k); [assumption|].
    bind_as get_holds shnum.
    apply holds_bind; [now apply strtab_loop_holds|].
    intros [sbuf' strbase] s3 Hs3.
    destruct (strbase =? NULL); [assumption|].
    bind_as get_holds shnum'.
    apply holds_bind; [now apply dynamic_loop_holds|].
    intros; assumption.
Qed.
End Image.

Lemma exe_body_holds exe st :
  I st -> holds_out (exe_body W rec exe st).
Proof.
  intros H. unfold exe_body.
  destruct (open_rdonly W exe) as [m0|]; [|simpl; now apply I_warn].
  destruct m0 as [|b m0]; [simpl; now apply I_perror|].
  pose proof (scan_image_holds exe (mmap_base W)
                (mmap_base W + Z.of_nat (List.length (b :: m0)))
                (b :: m0) st H) as S.
  destruct (scan_image _ _ _ _ _ _ _); simpl in *; auto.
Qed.
End Invariant.

Lemma holds_out_weaken (I J : state -> Prop) (F : Prop) (o : outcome) :
  (forall s, I s -> J s) -> holds_out I F o -> holds_out J F o.
Proof. intros H. destruct o; simpl; auto. Qed.

(** Every property the updates keep holds after [copy_libs_for_exe],
    whatever the bound. *)
Lemma copy_libs_for_exe_keeps (W : world) (I : state -> Prop) :
  (forall msg st, I st -> I (emit (Stderr msg) st)) ->
  (forall tag st, I st -> I (emit (Perror tag) st)) ->
  (forall name st, I st -> I (set_libs (storage_add (libs st) name) st)) ->
  (forall name st, I st -> I (set_lib_paths (storage_add (lib_paths st) name) st)) ->
  forall fuel exe st,
    I st -> holds_out I True (copy_libs_for_exe W fuel exe st).
Proof.
  intros H1 H2 H3 H4. induction fuel as [|n IH]; intros exe st H.
  - exact Logic.I.
  - cbn [copy_libs_for_exe]. apply exe_body_holds; auto.
Qed.

(** The same, for a property that a line on the error stream keeps only
    in a state that is not quiet. *)
Lemma copy_libs_for_exe_keeps_loud (W : world) (I : state -> Prop) :
  (forall msg st, I st -> arg_quiet st = false -> I (emit (Stderr msg) st)) ->
  (forall tag st, I st -> I (emit (Perror tag) st)) ->
  (forall name st, I st -> I (set_libs (storage_add (libs st) name) st)) ->
  (forall name st, I st -> I (set_lib_paths (storage_add (lib_paths st) name) st)) ->
  forall fuel exe st,
    I st -> holds_out I True (copy_libs_for_exe W fuel exe st).
Proof.
  intros H1 H2 H3 H4. induction fuel as [|n IH]; intros exe st H.
  - exact Logic.I.
  - cbn [copy_libs_for_exe]. apply exe_body_holds; auto.
Qed.

(** ** Termination *)

Lemma filter_length_le {A} (f g : A -> bool) (l : list A) :
  (forall x, f x = true -> g x = true) ->
  (List.length (filter f l) <= List.length (filter g l))%nat.
Proof.
  intros H. induction l as [|a l IH]; simpl; [lia|].
  destruct (f a) eqn:Fa.
  - rewrite (H a Fa). simpl. lia.
  - destruct (g a); simpl; lia.
Qed.

Lemma filter_length_lt {A} (f g : A -> bool) (l : list A) (x : A) :
  (forall y, f y = true -> g y = true) ->
  In x l -> g x = true -> f x = false ->
  (List.length (filter f l) < List.length (filter g l))%nat.
Proof.
  intros H. induction l as [|a l IH]; simpl; [tauto|].
  intros [->|Hin] Gx Fx.
  - rewrite Gx, Fx. simpl.
    pose proof (filter_length_le f g l H). lia.
  - specialize (IH Hin Gx Fx).
    destruct (f a) eqn:Fa.
    + rewrite (H a Fa). simpl. lia.
    + destruct (g a); simpl; lia.
Qed.

Lemma pending_incl (W : world) (l l' : Storage) :
  incl l l' -> (pending W l' <= pending W l)%nat.
Proof.
  intros H. unfold pending. apply filter_length_le.
  intros x Hx. apply negb_true_iff in Hx. apply negb_true_iff.
  apply storage_find_not_In. apply storage_find_not_In in Hx. auto.
Qed.

Lemma lookup_In (fs : list (string * file)) (path : string) (f : file) :
  lookup fs path = Some f -> In path (map fst fs).
Proof.
  induction fs as [|[p g] fs IH]; simpl; [discriminate|].
  destruct (String.eqb p path) eqn:E.
  - apply String.eqb_eq in E. auto.
  - auto.
Qed.

Lemma access_ok_In (W : world) (path : string) :
  access_ok W path = true -> In path (map fst (files W)).
Proof.
  unfold access_ok. destruct (lookup (files W) path) eqn:E; [|discriminate].
  intros _. eapply lookup_In, E.
Qed.

Lemma pending_add (W : world) (l : Storage) (fname : string) :
  access_ok W fname = true -> storage_find l fname = false ->
  (pending W (storage_add l fname) < pending W l)%nat.
Proof.
  intros A Fd. unfold pending.
  apply filter_length_lt with (x := fname).
  - intros y Hy. apply negb_true_iff in Hy. apply negb_true_iff.
    apply storage_find_not_In. apply storage_find_not_In in Hy.
    intros Hin. apply Hy, storage_add_incl, Hin.
  - now apply access_ok_In.
  - now rewrite Fd.
  - apply negb_false_iff, storage_find_In, storage_add_In. now left.
Qed.

(** With more turns than paths still pending, [copy_libs_for_exe] comes to
    an end (it returns or it faults), and [libs] has only grown. *)
Lemma copy_libs_for_exe_ends (W : world) :
  forall fuel exe st,
    (pending W (libs st) < fuel)%nat ->
    holds_out (fun s => incl (libs st) (libs s)) False
              (copy_libs_for_exe W fuel exe st).
Proof.
  induction fuel as [|n IH]; intros exe st Hn; [lia|].
  cbn [copy_libs_for_exe].
  apply exe_body_holds.
  - intros msg s H _. exact H.
  - intros tag s H. exact H.
  - intros name s H. simpl. eapply incl_tran; [exact H|].
    apply storage_add_incl.
  - intros name s H. exact H.
  - intros fname s H A Fd.
    eapply holds_out_weaken; [|apply IH].
    + intros s' Hs'. simpl in Hs'.
      eapply incl_tran; [exact H|]. eapply incl_tran; [|exact Hs'].
      apply storage_add_incl.
    + simpl. pose proof (pending_add W (libs s) fname A Fd).
      pose proof (pending_incl W _ _ H). lia.
  - apply incl_refl.
Qed.

(** ** More turns change nothing

    A run that ends within the bound ends the same way under any larger
    bound. *)

Lemma rrefines_refl {A} (r : res A) : rrefines r r.
Proof. now right. Qed.

Lemma bind_refines {A B} (m m' : M A) (k k' : A -> M B) (st : state) :
  rrefines (m st) (m' st) ->
  (forall a s, rrefines (k a s) (k' a s)) ->
  rrefines (bind m k st) (bind m' k' st).
Proof.
  intros [H|H] Hk; unfold bind.
  - left. now rewrite H.
  - rewrite H. destruct (m st); try apply rrefines_refl. apply Hk.
Qed.

Lemma bind_refines_same {A B} (m : M A) (k k' : A -> M B) (st : state) :
  (forall a s, rrefines (k a s) (k' a s)) ->
  rrefines (bind m k st) (bind m k' st).
Proof. intros H. apply bind_refines; [apply rrefines_refl | exact H]. Qed.

Lemma call_refines (o o' : state -> outcome) (st : state) :
  refines (o st) (o' st) -> rrefines (call o st) (call o' st).
Proof.
  unfold call. intros [H|H].
  - left. now rewrite H.
  - right. now rewrite H.
Qed.

Section Refine.
Variable W : world.
Variables rec rec' : string -> state -> outcome.
Hypothesis rec_refines : forall f s, refines (rec f s) (rec' f s).

Lemma lib_search_refines lib lib_path st :
  refines (lib_search W rec lib lib_path st) (lib_search W rec' lib lib_path st).
Proof.
  induction lib_path as [|d next IH]; cbn [lib_search].
  - now right.
  - destruct lib as [l|]; [|now right].
    destruct (access_ok W (fname_of d l)); [|exact IH].
    destruct (storage_find (libs st) (fname_of d l)); [now right|].
    apply rec_refines.
Qed.

Variable exe : string.
Variable base end_ : Z.

Lemma needed_loop_refines n : forall m strbase size dbuf st,
    rrefines (needed_loop W rec exe base end_ n m strbase size dbuf st)
             (needed_loop W rec' exe base end_ n m strbase size dbuf st).
Proof.
  induction n as [|n IH]; intros m strbase size dbuf st; cbn [needed_loop].
  - now right.
  - destruct (sizeof_Dyn (abi W) <=? size); [|now right].
    apply bind_refines_same. intros k s. destruct k; [|now right].
    apply bind_refines_same. intros tag s1.
    apply bind_refines; [|intros; apply IH].
    destruct (tag =? DT_NEEDED); [|now right].
    apply bind_refines_same. intros v s2.
    apply bind_refines_same. intros k2 s3.
    destruct (negb k2); [now right|].
    apply call_refines. apply lib_search_refines.
Qed.

Lemma dynamic_loop_refines sections : forall m strbase sbuf st,
    rrefines (dynamic_loop W rec exe base end_ sections m strbase sbuf st)
             (dynamic_loop W rec' exe base end_ sections m strbase sbuf st).
Proof.
  induction sections as [|n IH]; intros m strbase sbuf st;
    cbn [dynamic_loop].
  - now right.
  - apply bind_refines_same. intros k s. destruct k; [|now right].
    apply bind_refines_same. intros ty s1.
    destruct (ty =? SHT_NULL); [now right|].
    apply bind_refines; [|intros; apply IH].
    destruct (ty =? SHT_DYNAMIC); [|now right].
    apply bind_refines_same. intros off s2.
    apply bind_refines_same. intros k2 s3.
    destruct (negb k2); [now right|].
    apply bind_refines_same. intros size s4.
    apply bind_refines_same. intros _ s5.
    apply bind_refines_same. intros off' s6.
    apply bind_refines_same. intros size' s7.
    apply needed_loop_refines.
Qed.

Lemma scan_image_refines m0 st :
  rrefines (scan_image W rec exe base end_ m0 st)
           (scan_image W rec' exe base end_ m0 st).
Proof.
  unfold scan_image.
  apply bind_refines_same. intros elf s. destruct (negb elf); [now right|].
  apply bind_refines_same. intros m s1.
  apply bind_refines_same. intros shoff s2.
  apply bind_refines_same. intros k s3. destruct (negb k); [now right|].
  apply bind_refines_same. intros shnum s4.
  apply bind_refines_same. intros [sbuf' strbase] s5.
  destruct (strbase =? NULL); [now right|].
  apply bind_refines_same. intros shnum' s6.
  apply bind_refines; [apply dynamic_loop_refines | intros; now right].
Qed.
End Refine.

Lemma exe_body_refines (W : world) (rec rec' : string -> state -> outcome) :
  (forall f s, refines (rec f s) (rec' f s)) ->
  forall exe st, refines (exe_body W rec exe st) (exe_body W rec' exe st).
Proof.
  intros H exe st. unfold exe_body.
  destruct (open_rdonly W exe) as [m0|]; [|now right].
  destruct m0 as [|b m0]; [now right|].
  destruct (scan_image_refines W rec rec' H exe (mmap_base W)
              (mmap_base W + Z.of_nat (List.length (b :: m0))) (b :: m0) st)
    as [E|E]; rewrite E.
  - now left.
  - now right.
Qed.

Lemma copy_libs_for_exe_step (W : world) (n : nat) :
  forall exe st,
    refines (copy_libs_for_exe W n exe st) (copy_libs_for_exe W (S n) exe st).
Proof.
  induction n as [|n IH]; intros exe st.
  - now left.
  - change (refines (exe_body W (copy_libs_for_exe W n) exe st)
                    (exe_body W (copy_libs_for_exe W (S n)) exe st)).
    now apply exe_body_refines.
Qed.

Lemma copy_libs_for_exe_mono (W : world) (n n' : nat) (exe : string) (st : state) :
  (n <= n')%nat ->
  copy_libs_for_exe W n exe st <> OutOfFuel ->
  copy_libs_for_exe W n' exe st = copy_libs_for_exe W n exe st.
Proof.
  intros Hle Hn. induction Hle as [|n' Hle IH]; [reflexivity|].
  destruct (copy_libs_for_exe_step W n' exe st) as [E|E]; congruence.
Qed.

Lemma pending_le (W : world) (l : Storage) :
  (pending W l <= List.length (files W))%nat.
Proof.
  unfold pending.
  rewrite <- (length_map fst (files W)).
  induction (map fst (files W)) as [|a l' IH]; simpl; [lia|].
  destruct (negb (storage_find l a)); simpl; lia.
Qed.

Lemma copy_libs_for_exe_total (W : world) (fuel : nat) (exe : string)
      (st : state) :
  (pending W (libs st) < fuel)%nat ->
  exists s,
    (copy_libs_for_exe W fuel exe st = Done s \/
     copy_libs_for_exe W fuel exe st = Crash s) /\
    incl (libs st) (libs s).
Proof.
  intros H. pose proof (copy_libs_for_exe_ends W fuel exe st H) as E.
  destruct (copy_libs_for_exe W fuel exe st) as [s|s|]; simpl in E.
  - exists s. auto.
  - exists s. auto.
  - contradiction.
Qed.

Lemma main_mono (W : world) (n n' : nat) (argv : list string) :
  (n <= n')%nat -> main W n argv <> Unfinished -> main W n' argv = main W n argv.
Proof.
  intros Hle Hn. unfold main in *.
  destruct argv as [|a0 [|a1 rest]]; try reflexivity.
  destruct (String.eqb a1 "--help"); [reflexivity|].
  destruct (negb (access_ok W a1)); [reflexivity|].
  destruct (_ || _ || _); [reflexivity|].
  cbv zeta in *.
  destruct ((Z.of_nat (List.length (a0 :: a1 :: rest)) =? 3) && _);
    [reflexivity|].
  rewrite (copy_libs_for_exe_mono W n n'); [reflexivity | assumption |].
  intros E. apply Hn. rewrite E. reflexivity.
Qed.

Lemma main_finishes (W : world) (fuel : nat) (argv : list string) :
  (enough W <= fuel)%nat -> main W fuel argv <> Unfinished.
Proof.
  intros Hf. unfold main.
  destruct argv as [|a0 [|a1 rest]]; try discriminate.
  destruct (String.eqb a1 "--help"); [discriminate|].
  destruct (negb (access_ok W a1)); [discriminate|].
  destruct (_ || _ || _); [discriminate|].
  cbv zeta.
  destruct ((Z.of_nat (List.length (a0 :: a1 :: rest)) =? 3) && _);
    [discriminate|].
  match goal with
  | |- context [copy_libs_for_exe W fuel a1 ?st] =>
      pose proof (pending_le W (libs st)) as P;
      assert (pending W (libs st) < fuel)%nat as Q
          by (unfold enough in Hf; lia);
      destruct (copy_libs_for_exe_total W fuel a1 st Q) as (s & [E|E] & _);
      rewrite E; discriminate
  end.
Qed.

(** ** What [main] leaves *)

Lemma storage_print_libs (l : Storage) (fd : Z) :
  forall st, libs (storage_print l fd st) = libs st.
Proof. induction l as [|n l IH]; intros st; simpl; [|rewrite IH]; reflexivity. Qed.

Lemma storage_print_lib_paths (l : Storage) (fd : Z) :
  forall st, lib_paths (storage_print l fd st) = lib_paths st.
Proof. induction l as [|n l IH]; intros st; simpl; [|rewrite IH]; reflexivity. Qed.

Lemma storage_print_trace (l : Storage) (fd : Z) :
  forall st,
    trace (storage_print l fd st)
    = (trace st ++ map (fun n => Dprintf fd (n ++ LF)) l)%list.
Proof.
  induction l as [|n l IH]; intros st; simpl.
  - now rewrite app_nil_r.
  - rewrite IH. simpl. now rewrite <- app_assoc.
Qed.

(** The scan writes to the error stream only: its events are diagnostics
    put after the events that were there. *)
Lemma copy_libs_for_exe_trace (W : world) (fuel : nat) (exe : string)
      (st : state) :
  holds_out (fun s => exists diag,
                 trace s = (trace st ++ diag)%list /\
                 forallb is_diag diag = true)
            True (copy_libs_for_exe W fuel exe st).
Proof.
  apply copy_libs_for_exe_keeps.
  - intros msg s (diag & E & D). exists (diag ++ [Stderr msg])%list.
    simpl. rewrite E, <- app_assoc, forallb_app, D. auto.
  - intros tag s (diag & E & D). exists (diag ++ [Perror tag])%list.
    simpl. rewrite E, <- app_assoc, forallb_app, D. auto.
  - intros name s H. exact H.
  - intros name s H. exact H.
  - exists []. now rewrite app_nil_r.
Qed.

(** Neither list holds a name twice, when it did not before. *)
Lemma copy_libs_for_exe_NoDup (W : world) (fuel : nat) (exe : string)
      (st : state) :
  NoDup (libs st) -> NoDup (lib_paths st) ->
  holds_out (fun s => NoDup (libs s) /\ NoDup (lib_paths s))
            True (copy_libs_for_exe W fuel exe st).
Proof.
  intros H1 H2. apply copy_libs_for_exe_keeps; auto.
  - intros name s [A B]. split; [apply storage_add_NoDup, A | exact B].
  - intros name s [A B]. split; [exact A | apply storage_add_NoDup, B].
Qed.

Lemma Exited_inj (c c' : Z) (s s' : state) :
  Exited c s = Exited c' s' -> s = s'.
Proof. congruence. Qed.

(** In whatever way [main] exits, neither list holds a name twice. *)
Lemma main_NoDup (W : world) (fuel : nat) (argv : list string) (code : Z)
      (s : state) :
  main W fuel argv = Exited code s -> NoDup (libs s) /\ NoDup (lib_paths s).
Proof.
  assert (NoDup (@nil string)) as N0 by constructor.
  unfold main.
  destruct argv as [|a0 [|a1 rest]];
    try (intros E; apply Exited_inj in E; subst s; simpl; auto).
  destruct (String.eqb a1 "--help");
    [intros E; apply Exited_inj in E; subst s; simpl; auto|].
  destruct (negb (access_ok W a1));
    [intros E; apply Exited_inj in E; subst s; simpl; auto|].
  set (st1 := match getenv_FIREJAIL_QUIET W with
              | Some q => if String.eqb q "yes" then set_quiet true initial
                          else initial
              | None => initial
              end).
  assert (libs st1 = [] /\ lib_paths st1 = []) as [L1 P1].
  { unfold st1. destruct (getenv_FIREJAIL_QUIET W) as [q|]; [|auto].
    destruct (String.eqb q "yes"); auto. }
  destruct (_ || _ || _).
  { intros E; apply Exited_inj in E; subst s. simpl. rewrite L1, P1. auto. }
  cbv zeta.
  set (argc := Z.of_nat (List.length (a0 :: a1 :: rest))).
  set (st2 := if argc =? 3 then _ else st1).
  assert (libs st2 = [] /\ lib_paths st2 = []) as [L2 P2].
  { unfold st2. destruct (argc =? 3); simpl; auto. }
  destruct ((argc =? 3) && _).
  { intros E; apply Exited_inj in E; subst s. simpl. rewrite L2, P2. auto. }
  pose proof (copy_libs_for_exe_NoDup W fuel a1 (lib_paths_init W st2)) as K.
  cbn [lib_paths_init set_lib_paths libs lib_paths] in K.
  rewrite L2, P2 in K.
  specialize (K N0 (fold_add_NoDup _ _ N0)).
  destruct (copy_libs_for_exe W fuel a1 (lib_paths_init W st2)) as [s'|s'|];
    try discriminate.
  simpl in K. intros E. apply Exited_inj in E. subst s.
  destruct (argc =? 3); cbn [emit libs lib_paths];
    rewrite storage_print_libs, storage_print_lib_paths; exact K.
Qed.

(** C9.  Adding a name that is present changes nothing: the list is the
    same list (so every node keeps its place), adding twice is adding
    once, and a list built by adds alone never holds a name twice; so
    neither list does when [main] exits. *)
Theorem storage_add_idempotent (head : Storage) (name : string) :
  (In name head -> storage_add head name = head) /\
  storage_add (storage_add head name) name = storage_add head name /\
  (NoDup head -> NoDup (storage_add head name)) /\
  (forall names, NoDup (fold_left storage_add names [])) /\
  (forall W fuel argv code s,
      main W fuel argv = Exited code s ->
      NoDup (libs s) /\ NoDup (lib_paths s)).
Proof.
  repeat split.
  - apply storage_add_present.
  - apply storage_add_present, storage_add_In. now left.
  - apply storage_add_NoDup.
  - intros names. apply fold_add_NoDup. constructor.
  - eapply main_NoDup; eassumption.
  - eapply main_NoDup; eassumption.
Qed.

Lemma storage_add_idempotent_witness :
  storage_add ["/lib64"; "/lib"] "/lib" = ["/lib64"; "/lib"] /\
  NoDup (storage_add ["/lib64"; "/lib"] "/usr/lib") /\
  NoDup ["/lib/libA.so"; "/lib/libB.so"].
Proof.
  destruct (storage_add_idempotent ["/lib64"; "/lib"] "/lib") as (H1 & _).
  destruct (storage_add_idempotent ["/lib64"; "/lib"] "/usr/lib")
    as (_ & _ & H3 & _ & H5).
  split; [|split].
  - apply H1. simpl. auto.
  - apply H3. repeat constructor; simpl; intuition discriminate.
  - apply (H5 Demo.W 3%nat ["fldd"; "/lib/libA.so"] 0
              (mkState ["/lib/libA.so"; "/lib/libB.so"]
                       (lib_paths (lib_paths_init Demo.W initial))
                       false
                       [Dprintf 1 ("/lib/libA.so" ++ LF);
                        Dprintf 1 ("/lib/libB.so" ++ LF)])).
    vm_compute. reflexivity.
Defined.

(** C3.  A name whose first readable path is in the dependency list is
    dropped at once, whatever the recursive call would do.  With a bound
    above the number of paths not yet listed, [copy_libs_for_exe] ends
    (it returns, or faults on a read), ends the same way under any larger
    bound, and leaves a list that has grown and has no double entry; so
    [main] never hits the bound.  For the two libraries that need each
    other the run exits with one entry for each. *)
Theorem resolution_terminates :
  (forall W rec name pre d post st,
      lib_paths st = (pre ++ d :: post)%list ->
      (forall d', In d' pre -> access_ok W (fname_of d' name) = false) ->
      access_ok W (fname_of d name) = true ->
      In (fname_of d name) (libs st) ->
      copy_libs_for_lib W rec (Some name) st = Done st) /\
  (forall W fuel exe st,
      (pending W (libs st) < fuel)%nat ->
      (exists s,
          (copy_libs_for_exe W fuel exe st = Done s \/
           copy_libs_for_exe W fuel exe st = Crash s) /\
          incl (libs st) (libs s) /\
          (NoDup (libs st) -> NoDup (libs s))) /\
      (forall fuel', (fuel <= fuel')%nat ->
                     copy_libs_for_exe W fuel' exe st
                     = copy_libs_for_exe W fuel exe st)) /\
  (forall W fuel argv, (enough W <= fuel)%nat -> main W fuel argv <> Unfinished) /\
  (forall fuel,
      (3 <= fuel)%nat ->
      main Demo.W fuel ["fldd"; "/lib/libA.so"]
      = Exited 0 (mkState ["/lib/libA.so"; "/lib/libB.so"]
                          (lib_paths (lib_paths_init Demo.W initial))
                          false
                          [Dprintf 1 ("/lib/libA.so" ++ LF);
                           Dprintf 1 ("/lib/libB.so" ++ LF)])).
Proof.
  split; [|split; [|split]].
  - intros W rec name pre d post st E Hpre Hd Hin.
    unfold copy_libs_for_lib. rewrite E.
    rewrite lib_search_first_hit by assumption.
    unfold resolved. apply storage_find_In in Hin. now rewrite Hin.
  - intros W fuel exe st Hf. split.
    + destruct (copy_libs_for_exe_total W fuel exe st Hf) as (s & Hs & Hincl).
      exists s. split; [exact Hs|]. split; [exact Hincl|].
      intros ND.
      pose proof (copy_libs_for_exe_keeps W (fun s => NoDup (libs s))
                    (fun _ _ H => H) (fun _ _ H => H)
                    (fun name s H => storage_add_NoDup _ name H)
                    (fun _ _ H => H) fuel exe st ND) as K.
      destruct Hs as [Hs|Hs]; rewrite Hs in K; exact K.
    + intros fuel' Hle. apply copy_libs_for_exe_mono; [assumption|].
      destruct (copy_libs_for_exe_total W fuel exe st Hf) as (s & [Hs|Hs] & _);
        rewrite Hs; discriminate.
  - apply main_finishes.
  - intros fuel Hf.
    rewrite (main_mono Demo.W 3 fuel) by (try assumption; vm_compute; discriminate).
    vm_compute. reflexivity.
Qed.

Lemma resolution_terminates_witness :
  copy_libs_for_lib Demo.W (fun _ _ => OutOfFuel) (Some "libA.so")
                    (mkState ["/lib/libA.so"] ["/usr/lib"; "/lib"] false [])
  = Done (mkState ["/lib/libA.so"] ["/usr/lib"; "/lib"] false []) /\
  (exists s,
      (copy_libs_for_exe Demo.W (enough Demo.W) "/lib/libA.so" initial = Done s \/
       copy_libs_for_exe Demo.W (enough Demo.W) "/lib/libA.so" initial = Crash s) /\
      incl (libs initial) (libs s) /\
      (NoDup (libs initial) -> NoDup (libs s))) /\
  main Demo.W (enough Demo.W) ["fldd"; "/lib/libA.so"] <> Unfinished.
Proof.
  destruct resolution_terminates as (H1 & H2 & H3 & _).
  split; [|split].
  - apply (H1 Demo.W _ "libA.so" ["/usr/lib"] "/lib" []).
    + reflexivity.
    + intros d' [<-|[]]. reflexivity.
    + reflexivity.
    + simpl. auto.
  - apply (H2 Demo.W (enough Demo.W) "/lib/libA.so" initial).
    apply Nat.ltb_lt. reflexivity.
  - apply H3. apply Nat.leb_le. reflexivity.
Defined.

Lemma dprintf_calls_app (tr tr' : list event) :
  dprintf_calls (tr ++ tr') = (dprintf_calls tr ++ dprintf_calls tr')%list.
Proof. unfold dprintf_calls. apply flat_map_app. Qed.

Lemma dprintf_calls_diag (diag : list event) :
  forallb is_diag diag = true -> dprintf_calls diag = [].
Proof.
  induction diag as [|e diag IH]; [reflexivity|].
  simpl. intros H. apply andb_true_iff in H. destruct H as [He Hd].
  destruct e; try discriminate He; simpl; auto.
Qed.

Lemma main_scans (W : world) (fuel : nat) (argv0 argv1 : string)
      (rest : list string) :
  let argv := argv0 :: argv1 :: rest in
  let argc := Z.of_nat (List.length argv) in
  let fd := if argc =? 3 then open_out W else STDOUT_FILENO in
  String.eqb argv1 "--help" = false ->
  String.eqb argv1 "-h" = false ->
  String.eqb argv1 "-?" = false ->
  access_ok W argv1 = true ->
  (argc = 3 -> open_out W <> 0) ->
  main W fuel argv
  = match copy_libs_for_exe W fuel argv1 (scan_start W argv) with
    | Done s =>
        Exited 0 (if argc =? 3
                  then emit (CloseFd fd) (storage_print (libs s) fd s)
                  else storage_print (libs s) fd s)
    | Crash s => Killed s
    | OutOfFuel => Unfinished
    end.
Proof.
  intros argv argc fd E1 E2 E3 Hacc Hfd.
  unfold main, argv.
  rewrite E1, E2, E3, Hacc. cbn [negb orb].
  change (Z.of_nat (List.length (argv0 :: argv1 :: rest))) with argc.
  cbv zeta.
  change (if argc =? 3 then open_out W else STDOUT_FILENO) with fd.
  assert ((argc =? 3) && (fd =? 0) = false) as ->.
  { unfold fd. destruct (argc =? 3) eqn:A; [|reflexivity].
    apply Z.eqb_eq in A. specialize (Hfd A). simpl.
    apply Z.eqb_neq. exact Hfd. }
  reflexivity.
Qed.

(** C5.  A new entry becomes the head of [libs].  When [main] gets as
    far as the scan (a readable program that is no help option, and with
    an output file an [open] that gave a descriptor), the scan ends, and
    what [main] does is decided by how it ends.  When the scan returns,
    with the lists [libs] of its final state, [main] exits with 0 and its
    events are: the opening of the output file if one was asked for,
    then the diagnostics of the scan and nothing else, then one
    [dprintf(fd, "%s\n", name)] for each entry of [libs], head (the
    newest) first, and nothing after them but the closing of the file;
    this is so whatever warnings the scan gave on the way.  When the scan
    faults on a read, the process is killed where the scan was.  The run
    on [Demo.prog], one of whose two libraries is not there, prints the
    loader and the library that was found. *)
Theorem result_is_emitted :
  (forall head name, ~ In name head -> storage_add head name = name :: head) /\
  (forall (W : world) (fuel : nat) (argv0 argv1 : string) (rest : list string),
      let argv := argv0 :: argv1 :: rest in
      let argc := Z.of_nat (List.length argv) in
      let fd := if argc =? 3 then open_out W else STDOUT_FILENO in
      (enough W <= fuel)%nat ->
      String.eqb argv1 "--help" = false ->
      String.eqb argv1 "-h" = false ->
      String.eqb argv1 "-?" = false ->
      access_ok W argv1 = true ->
      (argc = 3 -> 0 < open_out W) ->
      match copy_libs_for_exe W fuel argv1 (scan_start W argv) with
      | Done s0 =>
          exists s diag,
            main W fuel argv = Exited 0 s /\
            libs s = libs s0 /\
            forallb is_diag diag = true /\
            trace s
            = ((if argc =? 3
                then [OpenOut (nth 2 argv "")
                              (Z.lor (Z.lor O_CREAT O_TRUNC) O_WRONLY)
                              420 (open_out W)]
                else [])
                 ++ diag
                 ++ map (fun name => Dprintf fd (name ++ LF)) (libs s0)
                 ++ (if argc =? 3 then [CloseFd fd] else []))%list /\
            dprintf_calls (trace s)
            = map (fun name => (fd, name ++ LF)) (libs s0)
      | Crash s0 => main W fuel argv = Killed s0
      | OutOfFuel => False
      end) /\
  main Demo.W (enough Demo.W) ["fldd"; "/usr/bin/prog"]
  = Exited 0
      (mkState ["/lib/x86_64-linux-gnu/libc.so.6"; "/lib64/ld-linux-x86-64.so.2"]
               (lib_paths (lib_paths_init Demo.W initial))
               false
               [Stderr ("Warning fldd: cannot find libgone.so.1, skipping..." ++ LF);
                Dprintf 1 ("/lib/x86_64-linux-gnu/libc.so.6" ++ LF);
                Dprintf 1 ("/lib64/ld-linux-x86-64.so.2" ++ LF)]).
Proof.
  split; [intros head name; apply storage_add_fresh|].
  split; [|vm_compute; reflexivity].
  intros W fuel argv0 argv1 rest argv argc fd Hf E1 E2 E3 Hacc Hfd.
  assert (argc = 3 -> open_out W <> 0) as Hfd' by (intros A; specialize (Hfd A); lia).
  pose proof (main_finishes W fuel argv Hf) as Fin.
  pose proof (main_scans W fuel argv0 argv1 rest E1 E2 E3 Hacc Hfd') as M.
  cbv zeta in M. fold argv in M. fold argc in M. fold fd in M.
  pose proof (copy_libs_for_exe_trace W fuel argv1 (scan_start W argv)) as K.
  destruct (copy_libs_for_exe W fuel argv1 (scan_start W argv))
    as [s0|s0|]; cbn [holds_out] in K.
  - destruct K as (diag & Etr & Hdiag).
    eexists. exists diag. split; [exact M|].
    assert (trace (scan_start W argv)
            = if argc =? 3
              then [OpenOut (nth 2 argv "")
                            (Z.lor (Z.lor O_CREAT O_TRUNC) O_WRONLY)
                            420 (open_out W)]
              else []) as T2.
    { unfold scan_start, quiet_state. fold argc.
      cbn [lib_paths_init set_lib_paths trace].
      destruct (argc =? 3); cbn [emit trace];
        destruct (getenv_FIREJAIL_QUIET W) as [q|]; try reflexivity;
        destruct (String.eqb q "yes"); reflexivity. }
    rewrite T2 in Etr.
    assert (forall l, dprintf_calls (map (fun name => Dprintf fd (name ++ LF)) l)
                      = map (fun name => (fd, name ++ LF)) l) as Dl.
    { induction l as [|n l IH]; simpl; [|rewrite IH]; reflexivity. }
    assert (dprintf_calls (trace s0) = []) as D0.
    { rewrite Etr, dprintf_calls_app, (dprintf_calls_diag diag Hdiag).
      destruct (argc =? 3); reflexivity. }
    destruct (argc =? 3).
    + cbn [trace emit libs]. rewrite storage_print_trace, storage_print_libs.
      split; [reflexivity|]. split; [exact Hdiag|]. split.
      * rewrite Etr. simpl. rewrite <- !app_assoc. reflexivity.
      * rewrite !dprintf_calls_app, D0, Dl. simpl. now rewrite app_nil_r.
    + rewrite storage_print_trace, storage_print_libs.
      split; [reflexivity|]. split; [exact Hdiag|]. split.
      * rewrite Etr. simpl. rewrite app_nil_r. reflexivity.
      * rewrite !dprintf_calls_app, D0, Dl. reflexivity.
  - exact M.
  - apply Fin. exact M.
Qed.

Lemma result_is_emitted_witness :
  exists s diag,
    main Demo.W (enough Demo.W) ["fldd"; "/usr/bin/prog"; "/tmp/out"]
    = Exited 0 s /\
    libs s = ["/lib/x86_64-linux-gnu/libc.so.6"; "/lib64/ld-linux-x86-64.so.2"] /\
    forallb is_diag diag = true /\
    trace s
    = ([OpenOut "/tmp/out" (Z.lor (Z.lor O_CREAT O_TRUNC) O_WRONLY) 420 3]
         ++ diag
         ++ [Dprintf 3 ("/lib/x86_64-linux-gnu/libc.so.6" ++ LF);
             Dprintf 3 ("/lib64/ld-linux-x86-64.so.2" ++ LF)]
         ++ [CloseFd 3])%list /\
    dprintf_calls (trace s)
    = [(3, "/lib/x86_64-linux-gnu/libc.so.6" ++ LF);
       (3, "/lib64/ld-linux-x86-64.so.2" ++ LF)].
Proof.
  destruct result_is_emitted as (_ & H & _).
  specialize (H Demo.W (enough Demo.W) "fldd" "/usr/bin/prog" ["/tmp/out"]).
  cbv zeta in H.
  assert (copy_libs_for_exe Demo.W (enough Demo.W) "/usr/bin/prog"
            (scan_start Demo.W ["fldd"; "/usr/bin/prog"; "/tmp/out"])
          = Done (mkState ["/lib/x86_64-linux-gnu/libc.so.6";
                           "/lib64/ld-linux-x86-64.so.2"]
                          (lib_paths (lib_paths_init Demo.W initial)) false
                          [OpenOut "/tmp/out" 577 420 3;
                           Stderr ("Warning fldd: cannot find libgone.so.1, skipping..."
                                     ++ LF)])) as E.
  { vm_compute. reflexivity. }
  rewrite E in H.
  apply H.
  - apply Nat.leb_le. reflexivity.
  - reflexivity.
  - reflexivity.
  - reflexivity.
  - reflexivity.
  - intros _. reflexivity.
Defined.

Lemma search_priority_witness :
  (let st := lib_paths_init Demo.W initial in
   let st' := set_lib_paths (storage_add (lib_paths st) "/opt/app/lib") st in
   lib_paths st' = "/opt/app/lib" :: lib_paths st /\
   copy_libs_for_lib Demo.W (fun _ s => Done s) (Some "libfoo.so") st'
   = resolved (fun _ s => Done s) (fname_of "/opt/app/lib" "libfoo.so") st') /\
  exe_body Demo.W (fun _ s => Done s) "/usr/bin/app"
           (lib_paths_init Demo.W initial)
  = Done (mkState ["/opt/app/lib/libfoo.so"]
                  ("/opt/app/lib" :: lib_paths (lib_paths_init Demo.W initial))
                  false []).
Proof.
  destruct search_priority as (_ & _ & H3 & H4 & _).
  split.
  - apply (H3 Demo.W (fun _ s => Done s) "libfoo.so" "/opt/app/lib"
              (lib_paths_init Demo.W initial)).
    + simpl. intros [E|[E|[E|[E|[E|[E|[E|[]]]]]]]]; discriminate E.
    + reflexivity.
    + reflexivity.
  - rewrite (H4 Demo.W (fun _ s => Done s) (lib_paths_init Demo.W initial)).
    + reflexivity.
    + reflexivity.
    + reflexivity.
    + reflexivity.
    + reflexivity.
    + simpl. intros [E|[E|[E|[E|[E|[E|[]]]]]]]; discriminate E.
Defined.

(** The same priority in a whole run: the program names /opt/app/lib, the
    library is readable there and in /usr/lib, and the first is taken. *)
Example declared_directory_wins :
  main Demo.W (enough Demo.W) ["fldd"; "/usr/bin/app"]
  = Exited 0
      (mkState ["/opt/app/lib/libfoo.so"]
               ("/opt/app/lib" :: lib_paths (lib_paths_init Demo.W initial))
               false
               [Dprintf 1 ("/opt/app/lib/libfoo.so" ++ LF)]).
Proof. vm_compute. reflexivity. Qed.

Lemma defaults_searched_in_reverse_witness :
  copy_libs_for_lib Demo.W (fun _ s => Done s) (Some "libfoo.so")
                    (lib_paths_init Demo.W initial)
  = resolved (fun _ s => Done s) (fname_of "/usr/lib" "libfoo.so")
             (lib_paths_init Demo.W initial).
Proof.
  destruct (defaults_searched_in_reverse Demo.W) as (_ & _ & _ & H).
  apply (H (fun _ s => Done s) "libfoo.so"
           ["/lib"; "/lib/x86_64-linux-gnu"; "/lib64"] "/usr/lib"
           ["/usr/lib/x86_64-linux-gnu"; "/usr/local/lib"; "/usr/local/lib"]).
  - reflexivity.
  - simpl. intros [E|[E|[E|[]]]]; discriminate E.
  - reflexivity.
  - intros d' [<-|[<-|[<-|[]]]] A; discriminate A.
  - reflexivity.
Defined.

(** C10, as worded, fails when LIBDIR is /usr/lib, which the array then
    names twice: libx.so is readable under /usr/lib and under
    /usr/lib/x86_64-linux-gnu, the last listing of a directory that has
    it is the second /usr/lib, and the search returns the file under
    /usr/lib/x86_64-linux-gnu, because /usr/lib stands in the registry
    where it was first added. *)
Lemma last_listed_default_is_not_taken :
  let W := Demo.distro in
  let rec := fun (_ : string) (s : state) => Done s in
  let st := lib_paths_init W initial in
  default_lib_paths W
  = (["/lib"; "/lib/x86_64-linux-gnu"; "/lib64"; "/usr/lib";
      "/usr/lib/x86_64-linux-gnu"] ++ "/usr/lib" :: ["/usr/local/lib"])%list /\
  access_ok W (fname_of "/usr/lib" "libx.so") = true /\
  access_ok W (fname_of "/usr/lib/x86_64-linux-gnu" "libx.so") = true /\
  access_ok W (fname_of "/usr/local/lib" "libx.so") = false /\
  lib_paths st
  = ["/usr/local/lib"; "/usr/lib/x86_64-linux-gnu"; "/usr/lib"; "/lib64";
     "/lib/x86_64-linux-gnu"; "/lib"] /\
  copy_libs_for_lib W rec (Some "libx.so") st
  = resolved rec (fname_of "/usr/lib/x86_64-linux-gnu" "libx.so") st /\
  copy_libs_for_lib W rec (Some "libx.so") st
  <> resolved rec (fname_of "/usr/lib" "libx.so") st /\
  ~ (forall (W : world) (rec : string -> state -> outcome) (name : string)
            (l1 : list string) (d : string) (l2 : list string),
        default_lib_paths W = (l1 ++ d :: l2)%list ->
        access_ok W (fname_of d name) = true ->
        (forall d', In d' l2 -> access_ok W (fname_of d' name) = false) ->
        copy_libs_for_lib W rec (Some name) (lib_paths_init W initial)
        = resolved rec (fname_of d name) (lib_paths_init W initial)).
Proof.
  assert (copy_libs_for_lib Demo.distro (fun _ s => Done s) (Some "libx.so")
            (lib_paths_init Demo.distro initial)
          <> resolved (fun _ s => Done s) (fname_of "/usr/lib" "libx.so")
                      (lib_paths_init Demo.distro initial)) as N.
  { vm_compute. intros E. discriminate E. }
  cbv zeta.
  split; [reflexivity|]. split; [reflexivity|]. split; [reflexivity|].
  split; [reflexivity|]. split; [reflexivity|]. split; [vm_compute; reflexivity|].
  split; [exact N|].
  intros H. apply N.
  apply (H Demo.distro (fun _ s => Done s) "libx.so"
           ["/lib"; "/lib/x86_64-linux-gnu"; "/lib64"; "/usr/lib";
            "/usr/lib/x86_64-linux-gnu"] "/usr/lib" ["/usr/local/lib"]).
  - reflexivity.
  - reflexivity.
  - intros d' [<-|[]]. reflexivity.
Qed.

(** ** Where the code departs from the specification *)

(** C1.  A file of 64 bytes that is an ELF header announcing one program
    header: [pbuf] is [end], [ptr_ok] accepts it ([ptr <= end]), and the
    read of [pbuf->p_type] is a read of four bytes that are not mapped. *)
Theorem header_only_reads_past_end :
  let W := Demo.W in
  let base := mmap_base W in
  let end_ := base + Z.of_nat (List.length Demo.header_only) in
  let pbuf := ptr_add W base (sizeof_Ehdr (abi W)) in
  pbuf = end_ /\
  ptr_ok pbuf base end_ "pbuf" "/tmp/header_only" initial = Ret true initial /\
  load_le Demo.header_only base (pbuf + f_off (p_type (abi W)))
          (f_len (p_type (abi W))) = None /\
  main W (enough W) ["fldd"; "/tmp/header_only"]
  = Killed (lib_paths_init W initial).
Proof. vm_compute. repeat split; reflexivity. Qed.

(** C2.  Two images made of the same parts, the dynamic section naming
    libc.so.6: with the string table's header first the library is found,
    with the dynamic section's header first the second loop starts behind
    it and the section is never looked at. *)
Theorem dynamic_before_strtab_is_missed :
  main Demo.W (enough Demo.W) ["fldd"; "/tmp/strtab_first"]
  = Exited 0
      (mkState ["/lib/x86_64-linux-gnu/libc.so.6"]
               (lib_paths (lib_paths_init Demo.W initial)) false
               [Dprintf 1 ("/lib/x86_64-linux-gnu/libc.so.6" ++ LF)]) /\
  main Demo.W (enough Demo.W) ["fldd"; "/tmp/dynamic_first"]
  = Exited 0
      (mkState [] (lib_paths (lib_paths_init Demo.W initial)) false []).
Proof. vm_compute. split; reflexivity. Qed.

(** The second loop starts at the string table's header with the full
    count: on a table of three headers whose string table is the second,
    it takes the library from the third and then reads a fourth header,
    which is past the end of the file. *)
Example second_loop_overruns_table :
  main Demo.W (enough Demo.W) ["fldd"; "/tmp/progbits_first"]
  = Killed (mkState ["/lib/x86_64-linux-gnu/libc.so.6"]
                    (lib_paths (lib_paths_init Demo.W initial)) false []).
Proof. vm_compute. reflexivity. Qed.

(** C6.  With no file called -h or -? in the working directory the two
    short options end in the access check, before the test that would
    print the usage; --help is tested before the check. *)
Theorem short_help_needs_a_file :
  main Demo.W (enough Demo.W) ["fldd"; "--help"] = Exited 0 (usage initial) /\
  main Demo.W (enough Demo.W) ["fldd"; "-h"]
  = Exited 1 (emit (Stderr ("Error fldd: cannot access -h" ++ LF)) initial) /\
  main Demo.W (enough Demo.W) ["fldd"; "-?"]
  = Exited 1 (emit (Stderr ("Error fldd: cannot access -?" ++ LF)) initial).
Proof. vm_compute. repeat split; reflexivity. Qed.

(** C7.  [open] fails and returns -1; the test [!fd] is false for -1, so
    the run goes on, hands -1 to [dprintf] and [close], and exits with 0
    without the usage message. *)
Theorem failed_open_is_not_noticed :
  main (Demo.world_with None (-1)) (enough Demo.W)
       ["fldd"; "/usr/bin/prog"; "/nonexistent/out"]
  = Exited 0
      (mkState ["/lib/x86_64-linux-gnu/libc.so.6"; "/lib64/ld-linux-x86-64.so.2"]
               (lib_paths (lib_paths_init Demo.W initial))
               false
               [OpenOut "/nonexistent/out" 577 420 (-1);
                Stderr ("Warning fldd: cannot find libgone.so.1, skipping..." ++ LF);
                Dprintf (-1) ("/lib/x86_64-linux-gnu/libc.so.6" ++ LF);
                Dprintf (-1) ("/lib64/ld-linux-x86-64.so.2" ++ LF);
                CloseFd (-1)]).
Proof. vm_compute. reflexivity. Qed.

(** C8.  FIREJAIL_QUIET is yes and the file has no bytes, so [mmap]
    fails: the [perror] under the label [error_close] is not behind the
    test of [arg_quiet], and the line goes to the error stream. *)
Theorem perror_ignores_quiet :
  main (Demo.world_with (Some "yes") 3) (enough Demo.W) ["fldd"; "/tmp/empty"]
  = Exited 0
      (mkState [] (lib_paths (lib_paths_init Demo.W initial)) true
               [Perror "copy libs"]).
Proof. vm_compute. reflexivity. Qed.


(** ** Quiet mode changes the diagnostics only *)

Lemma sim_warn (msg msg' : string) (s s' : state) :
  sim s s' -> sim (warn msg s) (warn msg' s').
Proof.
  unfold warn. intros H.
  destruct (arg_quiet s), (arg_quiet s'); exact H.
Qed.

Lemma sim_emit (e e' : event) (s s' : state) :
  sim s s' -> sim (emit e s) (emit e' s').
Proof. intros H. exact H. Qed.

Lemma sim_add_libs (name : string) (s s' : state) :
  sim s s' ->
  sim (set_libs (storage_add (libs s) name) s)
      (set_libs (storage_add (libs s') name) s').
Proof.
  intros (H1 & H2 & H3). unfold sim. simpl. rewrite H1. auto.
Qed.

Lemma sim_add_paths (name : string) (s s' : state) :
  sim s s' ->
  sim (set_lib_paths (storage_add (lib_paths s) name) s)
      (set_lib_paths (storage_add (lib_paths s') name) s').
Proof.
  intros (H1 & H2 & H3). unfold sim. simpl. rewrite <- H2.
  repeat split; auto.
  unfold storage_add. destruct (storage_find (lib_paths s) name);
    [assumption | discriminate].
Qed.

Lemma bind_sim {A B} (m m' : M A) (k k' : A -> M B) (st st' : state) :
  rsim (m st) (m' st') ->
  (forall a s s', sim s s' -> rsim (k a s) (k' a s')) ->
  rsim (bind m k st) (bind m' k' st').
Proof.
  unfold bind. intros H Hk.
  destruct (m st), (m' st'); simpl in H; try contradiction; try exact H.
  destruct H as [<- H]. now apply Hk.
Qed.

Lemma read_sim {A} (o : option A) (st st' : state) :
  sim st st' -> rsim (read o st) (read o st').
Proof. intros H. destruct o; simpl; auto. Qed.

Lemma ptr_ok_sim ptr base end_ name exe st st' :
  sim st st' ->
  rsim (ptr_ok ptr base end_ name exe st) (ptr_ok ptr base end_ name exe st').
Proof.
  intros H. unfold ptr_ok. simpl. split; [reflexivity|].
  destruct (negb _); [now apply sim_warn | exact H].
Qed.

Lemma call_sim (o o' : state -> outcome) (st st' : state) :
  osim (o st) (o' st') -> rsim (call o st) (call o' st').
Proof.
  unfold call. destruct (o st), (o' st'); simpl; auto.
Qed.

Section Quiet.
Variable W : world.
Variable rec : string -> state -> outcome.
Hypothesis rec_sim : forall f s s', sim s s' -> osim (rec f s) (rec f s').

Lemma lib_search_sim lib lib_path st st' :
  sim st st' -> lib_path <> [] ->
  osim (lib_search W rec lib lib_path st) (lib_search W rec lib lib_path st').
Proof.
  intros H. induction lib_path as [|d next IH]; intros Hne; [congruence|].
  cbn [lib_search].
  destruct lib as [l|]; [|exact H].
  destruct (access_ok W (fname_of d l)).
  - assert (libs st' = libs st) as -> by (symmetry; apply H).
    destruct (storage_find (libs st) (fname_of d l)); [exact H|].
    apply rec_sim. destruct H as (H1 & H2 & H3). unfold sim. simpl. auto.
  - destruct next as [|d' next'].
    + cbn [lib_search].
      destruct (arg_quiet st), (arg_quiet st'); exact H.
    + apply IH. discriminate.
Qed.

Lemma copy_libs_for_lib_sim lib st st' :
  sim st st' ->
  osim (copy_libs_for_lib W rec lib st) (copy_libs_for_lib W rec lib st').
Proof.
  intros H. unfold copy_libs_for_lib.
  destruct H as (H1 & H2 & H3). rewrite <- H2.
  apply lib_search_sim; [unfold sim; auto | assumption].
Qed.

Variable exe : string.
Variable base end_ : Z.

Ltac sim_as L x :=
  apply bind_sim; [apply L; assumption | intros x ? ? ?].

Lemma get_sim m p f st st' :
  sim st st' -> rsim (get W base m p f st) (get W base m p f st').
Proof. intros H. unfold get. now apply read_sim. Qed.

Lemma ok_sim ptr name st st' :
  sim st st' ->
  rsim (ok exe base end_ ptr name st) (ok exe base end_ ptr name st').
Proof. apply ptr_ok_sim. Qed.

Lemma magic_eq_sim magic : forall m a st st',
    sim st st' -> rsim (magic_eq base m a magic st) (magic_eq base m a magic st').
Proof.
  induction magic as [|c cs IH]; intros m a st st' H; cbn [magic_eq].
  - simpl. auto.
  - sim_as @read_sim b. destruct (b =? c); [now apply IH | simpl; auto].
Qed.

Lemma phdr_loop_sim n : forall m pbuf st st',
    sim st st' ->
    rsim (phdr_loop W exe base end_ n m pbuf st)
         (phdr_loop W exe base end_ n m pbuf st').
Proof.
  induction n as [|n IH]; intros m pbuf st st' H; cbn [phdr_loop].
  - exact Logic.I.
  - sim_as get_sim phnum.
    destruct (0 <? phnum); [|simpl; auto].
    sim_as ok_sim k. destruct k; [|simpl; auto].
    sim_as get_sim ty.
    apply bind_sim; [|intros; now apply IH].
    destruct (ty =? PT_INTERP); [|simpl; auto].
    sim_as get_sim off. sim_as ok_sim k2.
    destruct (negb k2); [assumption|].
    sim_as @read_sim name. simpl. split; [reflexivity|].
    now apply sim_add_libs.
Qed.

Lemma strtab_loop_sim sections : forall m sbuf st st',
    sim st st' ->
    rsim (strtab_loop W exe base end_ sections m sbuf st)
         (strtab_loop W exe base end_ sections m sbuf st').
Proof.
  induction sections as [|n IH]; intros m sbuf st st' H; cbn [strtab_loop].
  - simpl. auto.
  - sim_as ok_sim k. destruct k; [|simpl; auto].
    sim_as get_sim ty.
    destruct (ty =? SHT_STRTAB); [|now apply IH].
    sim_as get_sim off. sim_as ok_sim k2.
    destruct (negb k2); simpl; auto.
Qed.

Lemma rpath_loop_sim n : forall m strbase size dbuf st st',
    sim st st' ->
    rsim (rpath_loop W exe base end_ n m strbase size dbuf st)
         (rpath_loop W exe base end_ n m strbase size dbuf st').
Proof.
  induction n as [|n IH]; intros m strbase size dbuf st st' H;
    cbn [rpath_loop].
  - exact Logic.I.
  - destruct (sizeof_Dyn (abi W) <=? size); [|simpl; auto].
    sim_as ok_sim k. destruct k; [|simpl; auto].
    sim_as get_sim tag.
    apply bind_sim; [|intros; now apply IH].
    destruct ((tag =? DT_RPATH) || (tag =? DT_RUNPATH)); [|simpl; auto].
    sim_as get_sim v. sim_as ok_sim k2.
    destruct (negb k2); [assumption|].
    sim_as @read_sim name. simpl. split; [reflexivity|].
    now apply sim_add_paths.
Qed.

Lemma needed_loop_sim n : forall m strbase size dbuf st st',
    sim st st' ->
    rsim (needed_loop W rec exe base end_ n m strbase size dbuf st)
         (needed_loop W rec exe base end_ n m strbase size dbuf st').
Proof.
  induction n as [|n IH]; intros m strbase size dbuf st st' H;
    cbn [needed_loop].
  - exact Logic.I.
  - destruct (sizeof_Dyn (abi W) <=? size); [|simpl; auto].
    sim_as ok_sim k. destruct k; [|simpl; auto].
    sim_as get_sim tag.
    apply bind_sim; [|intros; now apply IH].
    destruct (tag =? DT_NEEDED); [|simpl; auto].
    sim_as get_sim v. sim_as ok_sim k2.
    destruct (negb k2); [assumption|].
    apply call_sim. now apply copy_libs_for_lib_sim.
Qed.

Lemma dynamic_loop_sim sections : forall m strbase sbuf st st',
    sim st st' ->
    rsim (dynamic_loop W rec exe base end_ sections m strbase sbuf st)
         (dynamic_loop W rec exe base end_ sections m strbase sbuf st').
Proof.
  induction sections as [|n IH]; intros m strbase sbuf st st' H;
    cbn [dynamic_loop].
  - simpl. auto.
  - sim_as ok_sim k. destruct k; [|simpl; auto].
    sim_as get_sim ty.
    destruct (ty =? SHT_NULL); [simpl; auto|].
    apply bind_sim; [|intros; now apply IH].
    destruct (ty =? SHT_DYNAMIC); [|simpl; auto].
    sim_as get_sim off. sim_as ok_sim k2.
    destruct (negb k2); [assumption|].
    sim_as get_sim size.
    apply bind_sim; [now apply rpath_loop_sim|].
    intros _ s5 s5' H5.
    sim_as get_sim off'. sim_as get_sim size'.
    now apply needed_loop_sim.
Qed.

Lemma scan_image_sim m0 st st' :
  sim st st' ->
  rsim (scan_image W rec exe base end_ m0 st)
       (scan_image W rec exe base end_ m0 st').
Proof.
  intros H. unfold scan_image.
  sim_as magic_eq_sim elf.
  destruct (negb elf).
  { apply bind_sim; [|intros; assumption].
    simpl. split; [reflexivity | now apply sim_warn]. }
  apply bind_sim; [now apply phdr_loop_sim|].
  intros m s1 s1' H1.
  sim_as get_sim shoff. sim_as ok_sim k.
  destruct (negb k); [assumption|].
  sim_as get_sim shnum.
  apply bind_sim; [now apply strtab_loop_sim|].
  intros [sbuf' strbase] s5 s5' H5.
  destruct (strbase =? NULL); [assumption|].
  sim_as get_sim shnum'.
  apply bind_sim; [now apply dynamic_loop_sim | intros; assumption].
Qed.
End Quiet.

Lemma exe_body_sim (W : world) (rec : string -> state -> outcome) :
  (forall f s s', sim s s' -> osim (rec f s) (rec f s')) ->
  forall exe st st', sim st st' -> osim (exe_body W rec exe st) (exe_body W rec exe st').
Proof.
  intros Hrec exe st st' H. unfold exe_body.
  destruct (open_rdonly W exe) as [m0|]; [|simpl; now apply sim_warn].
  destruct m0 as [|b m0]; [exact H|].
  pose proof (scan_image_sim W rec Hrec exe (mmap_base W)
                (mmap_base W + Z.of_nat (List.length (b :: m0))) (b :: m0)
                st st' H) as S.
  destruct (scan_image _ _ _ _ _ _ st), (scan_image _ _ _ _ _ _ st');
    simpl in S; try contradiction; simpl; try tauto.
Qed.

Lemma copy_libs_for_exe_sim (W : world) (fuel : nat) :
  forall exe st st',
    sim st st' ->
    osim (copy_libs_for_exe W fuel exe st) (copy_libs_for_exe W fuel exe st').
Proof.
  induction fuel as [|n IH]; intros exe st st' H.
  - exact Logic.I.
  - cbn [copy_libs_for_exe]. now apply exe_body_sim.
Qed.

Lemma exe_body_ext (W : world) (rec rec' : string -> state -> outcome) :
  (forall f s, rec f s = rec' f s) ->
  forall exe st, exe_body W rec exe st = exe_body W rec' exe st.
Proof.
  intros H exe st.
  destruct (exe_body_refines W rec rec'
              (fun f s => or_intror (eq_sym (H f s))) exe st) as [E|E];
    [|congruence].
  destruct (exe_body_refines W rec' rec
              (fun f s => or_intror (H f s)) exe st) as [E'|E'];
    congruence.
Qed.

(** The scan does not look at the environment variable. *)
Lemma copy_libs_for_exe_with_quiet (W : world) (q : option string) (fuel : nat) :
  forall exe st,
    copy_libs_for_exe (with_quiet W q) fuel exe st
    = copy_libs_for_exe W fuel exe st.
Proof.
  destruct W as [a b c d e f]. unfold with_quiet. simpl.
  induction fuel as [|n IH]; intros exe st; [reflexivity|].
  cbn [copy_libs_for_exe].
  rewrite (exe_body_ext _ _ _ IH). reflexivity.
Qed.

(** X6.  Whatever FIREJAIL_QUIET is, the run has the same exit status,
    the same dependency list, and hands the same lines to [dprintf]. *)
Theorem quiet_keeps_result (W : world) (q : option string) (fuel : nat)
      (argv : list string) :
  same_result (main W fuel argv) (main (with_quiet W q) fuel argv).
Proof.
  unfold main.
  destruct argv as [|a0 [|a1 rest]]; [simpl; auto | simpl; auto |].
  destruct (String.eqb a1 "--help"); [simpl; auto|].
  change (access_ok (with_quiet W q) a1) with (access_ok W a1).
  destruct (negb (access_ok W a1)); [simpl; auto|].
  change (getenv_FIREJAIL_QUIET (with_quiet W q)) with q.
  change (open_out (with_quiet W q)) with (open_out W).
  set (st1 := match getenv_FIREJAIL_QUIET W with
              | Some q0 => if String.eqb q0 "yes" then set_quiet true initial
                           else initial
              | None => initial
              end).
  set (st1' := match q with
               | Some q0 => if String.eqb q0 "yes" then set_quiet true initial
                            else initial
               | None => initial
               end).
  assert (libs st1 = [] /\ lib_paths st1 = [] /\ trace st1 = []) as (L1 & P1 & T1).
  { unfold st1. destruct (getenv_FIREJAIL_QUIET W) as [q0|]; [|auto].
    destruct (String.eqb q0 "yes"); auto. }
  assert (libs st1' = [] /\ lib_paths st1' = [] /\ trace st1' = [])
    as (L1' & P1' & T1').
  { unfold st1'. destruct q as [q0|]; [|auto].
    destruct (String.eqb q0 "yes"); auto. }
  destruct (_ || _ || _).
  { simpl. rewrite L1, L1', T1, T1'. auto. }
  cbv zeta.
  set (argc := Z.of_nat (List.length (a0 :: a1 :: rest))).
  set (fd := if argc =? 3 then open_out W else STDOUT_FILENO).
  set (st2 := if argc =? 3 then _ else st1).
  set (st2' := if argc =? 3 then _ else st1').
  assert (libs st2 = [] /\ lib_paths st2 = [] /\
          libs st2' = [] /\ lib_paths st2' = [] /\
          trace st2 = trace st2') as (L2 & P2 & L2' & P2' & T2).
  { unfold st2, st2'. destruct (argc =? 3); simpl; rewrite ?T1, ?T1'; auto. }
  destruct ((argc =? 3) && _).
  { simpl. rewrite L2, L2', T2. auto. }
  rewrite copy_libs_for_exe_with_quiet.
  change (lib_paths_init (with_quiet W q) st2') with (lib_paths_init W st2').
  assert (sim (lib_paths_init W st2) (lib_paths_init W st2')) as S.
  { unfold sim, lib_paths_init. cbn [set_lib_paths libs lib_paths].
    rewrite L2, L2', P2, P2'. repeat split.
    destruct (lib_paths_init_ends W) as [Hd _].
    intros E. rewrite E in Hd. discriminate Hd. }
  pose proof (copy_libs_for_exe_sim W fuel a1 _ _ S) as K.
  pose proof (copy_libs_for_exe_trace W fuel a1 (lib_paths_init W st2)) as T.
  pose proof (copy_libs_for_exe_trace W fuel a1 (lib_paths_init W st2')) as T'.
  destruct (copy_libs_for_exe W fuel a1 (lib_paths_init W st2)) as [s|s|],
           (copy_libs_for_exe W fuel a1 (lib_paths_init W st2')) as [s'|s'|];
    cbn [osim] in K; try contradiction; cbn [same_result]; try tauto.
  2:{ apply K. }
  destruct K as (Kl & _). cbn [holds_out] in T, T'.
  destruct T as (diag & Et & Hd), T' as (diag' & Et' & Hd').
  cbn [lib_paths_init set_lib_paths trace] in Et, Et'.
  split; [reflexivity|].
  assert (dprintf_calls (trace s) = dprintf_calls (trace s')) as Ed.
  { rewrite Et, Et', !dprintf_calls_app, T2.
    now rewrite (dprintf_calls_diag diag Hd), (dprintf_calls_diag diag' Hd'). }
  destruct (argc =? 3); cbn [emit libs trace];
    rewrite !storage_print_libs, !storage_print_trace, ?dprintf_calls_app,
      Kl, Ed; auto.
Qed.


(** * Further properties of the code *)

(** ** The two lists *)

(** X1.  After [storage_add] the name is found, the search for any other
    name gives what it gave before, and the list is longer by one node
    exactly when the name was not there. *)
Theorem storage_find_after_add (head : Storage) (name x : string) :
  storage_find (storage_add head name) x
  = (String.eqb name x || storage_find head x) /\
  List.length (storage_add head name)
  = (if storage_find head name then List.length head
     else S (List.length head)).
Proof.
  unfold storage_add. destruct (storage_find head name) eqn:E; split;
    try reflexivity.
  destruct (String.eqb name x) eqn:N; [|reflexivity].
  apply String.eqb_eq in N. subst x. now rewrite E.
Qed.

Lemma fold_add_all_present (names : list string) (head : Storage) :
  (forall x, In x names -> In x head) ->
  fold_left storage_add names head = head.
Proof.
  induction names as [|n names IH]; simpl; intros H; [reflexivity|].
  rewrite storage_add_present by (apply H; now left).
  apply IH. intros x Hx. apply H. now right.
Qed.

(** X2.  [lib_paths_init] puts every default directory into the registry
    and nothing else, in front of what was there; it touches neither
    [libs] nor the events, and a second call changes nothing. *)
Theorem lib_paths_init_registers_defaults (W : world) (st : state) :
  (forall d, In d (lib_paths (lib_paths_init W st))
             <-> In d (default_lib_paths W) \/ In d (lib_paths st)) /\
  (exists pre, lib_paths (lib_paths_init W st) = (pre ++ lib_paths st)%list) /\
  libs (lib_paths_init W st) = libs st /\
  trace (lib_paths_init W st) = trace st /\
  lib_paths_init W (lib_paths_init W st) = lib_paths_init W st.
Proof.
  unfold lib_paths_init. cbn [set_lib_paths lib_paths libs trace arg_quiet].
  repeat split.
  - apply fold_add_In.
  - apply fold_add_In.
  - destruct (fold_add_split (default_lib_paths W) (lib_paths st))
      as (pre & E & _). exists pre. exact E.
  - unfold set_lib_paths. cbn [lib_paths libs arg_quiet trace]. f_equal.
    apply fold_add_all_present. intros x Hx. apply fold_add_In. now left.
Qed.

(** ** The search for one name *)

(** X3.  [copy_libs_for_lib] on a name takes the first directory of the
    registry under which the name is readable and resolves to that path;
    when there is none it changes nothing but for the warning, and does
    not recurse.  A name that runs off the mapping faults as soon as the
    registry has a directory to try. *)
Theorem copy_libs_for_lib_first_hit (W : world)
        (rec : string -> state -> outcome) (st : state) :
  (forall name,
      copy_libs_for_lib W rec (Some name) st
      = match first_hit W name (lib_paths st) with
        | Some d => resolved rec (fname_of d name) st
        | None =>
            Done (warn ("Warning fldd: cannot find " ++ name
                          ++ ", skipping..." ++ LF) st)
        end) /\
  (lib_paths st <> [] -> copy_libs_for_lib W rec None st = Crash st).
Proof.
  unfold copy_libs_for_lib, first_hit. split.
  - intros name. induction (lib_paths st) as [|d next IH]; cbn [lib_search find].
    + unfold warn. destruct (arg_quiet st); reflexivity.
    + destruct (access_ok W (fname_of d name)); [reflexivity | exact IH].
  - destruct (lib_paths st) as [|d next]; [congruence | reflexivity].
Qed.

Lemma copy_libs_for_lib_first_hit_witness :
  copy_libs_for_lib Demo.W (fun _ s => Done s) None
                    (lib_paths_init Demo.W initial)
  = Crash (lib_paths_init Demo.W initial).
Proof.
  destruct (copy_libs_for_lib_first_hit Demo.W (fun _ s => Done s)
              (lib_paths_init Demo.W initial)) as [_ H].
  apply H. discriminate.
Defined.

(** ** What the scan keeps *)

(** X4.  [copy_libs_for_exe] never takes a node out of either list and
    never moves one: what was there is the tail of what is there after,
    new nodes stand in front; and it does not touch [arg_quiet].  This
    holds when the scan returns and when it faults. *)
Theorem scan_extends_lists (W : world) (fuel : nat) (exe : string)
        (st : state) :
  match copy_libs_for_exe W fuel exe st with
  | Done s | Crash s =>
      (exists pre, libs s = (pre ++ libs st)%list) /\
      (exists pre, lib_paths s = (pre ++ lib_paths st)%list) /\
      arg_quiet s = arg_quiet st
  | OutOfFuel => True
  end.
Proof.
  pose proof (copy_libs_for_exe_keeps W
                (fun s => (exists pre, libs s = (pre ++ libs st)%list) /\
                          (exists pre, lib_paths s = (pre ++ lib_paths st)%list) /\
                          arg_quiet s = arg_quiet st)) as K.
  assert (forall l n, exists pre, storage_add l n = (pre ++ l)%list) as A.
  { intros l n. unfold storage_add. destruct (storage_find l n).
    - exists []. reflexivity.
    - exists [n]. reflexivity. }
  specialize (K (fun _ _ H => H) (fun _ _ H => H)).
  assert (holds_out
            (fun s => (exists pre, libs s = (pre ++ libs st)%list) /\
                      (exists pre, lib_paths s = (pre ++ lib_paths st)%list) /\
                      arg_quiet s = arg_quiet st)
            True (copy_libs_for_exe W fuel exe st)) as R.
  { apply K.
    - intros name s ((pre & E) & P & Q). cbn [set_libs libs lib_paths arg_quiet].
      repeat split; try assumption.
      destruct (A (libs s) name) as (pre' & E'). exists (pre' ++ pre)%list.
      rewrite E', E, app_assoc. reflexivity.
    - intros name s (P & (pre & E) & Q). cbn [set_lib_paths libs lib_paths arg_quiet].
      repeat split; try assumption.
      destruct (A (lib_paths s) name) as (pre' & E'). exists (pre' ++ pre)%list.
      rewrite E', E, app_assoc. reflexivity.
    - repeat split; try (exists []; reflexivity). }
  destruct (copy_libs_for_exe W fuel exe st); exact R.
Qed.

(** X5.  In a quiet state the scan puts nothing on the error stream but
    [perror] lines, whatever it meets, and the state stays quiet. *)
Theorem quiet_scan_only_perror (W : world) (fuel : nat) (exe : string)
        (st : state) :
  arg_quiet st = true ->
  match copy_libs_for_exe W fuel exe st with
  | Done s | Crash s =>
      arg_quiet s = true /\
      exists tags, trace s = (trace st ++ map Perror tags)%list
  | OutOfFuel => True
  end.
Proof.
  intros Q.
  assert (holds_out
            (fun s => arg_quiet s = true /\
                      exists tags, trace s = (trace st ++ map Perror tags)%list)
            True (copy_libs_for_exe W fuel exe st)) as R.
  { apply copy_libs_for_exe_keeps_loud.
    - intros msg s [Qs _] Qf. congruence.
    - intros tag s [Qs (tags & E)]. split; [exact Qs|].
      exists (tags ++ [tag])%list. cbn [emit trace].
      rewrite E, map_app, app_assoc. reflexivity.
    - intros name s H. exact H.
    - intros name s H. exact H.
    - split; [exact Q|]. exists []. now rewrite app_nil_r. }
  destruct (copy_libs_for_exe W fuel exe st); exact R.
Qed.

Lemma quiet_scan_only_perror_witness :
  match copy_libs_for_exe Demo.W 2 "/tmp/empty" (set_quiet true initial) with
  | Done s | Crash s =>
      arg_quiet s = true /\
      exists tags,
        trace s = (trace (set_quiet true initial) ++ map Perror tags)%list
  | OutOfFuel => True
  end.
Proof.
  apply (quiet_scan_only_perror Demo.W 2 "/tmp/empty" (set_quiet true initial)).
  reflexivity.
Defined.

(** ** Files that are not scanned *)

Lemma byte_of_Z_of_byte (b : byte) : byte_of_Z (Z_of_byte b) = b.
Proof.
  unfold byte_of_Z. pose proof (Z_of_byte_range b) as R.
  rewrite Z.mod_small by lia. unfold Z_of_byte.
  rewrite N2Z.id, Byte.of_to_N. reflexivity.
Qed.

Lemma skipn_nth_error_Some {A} (l : list A) (k : nat) (x : A) :
  nth_error l k = Some x -> skipn k l = x :: skipn (S k) l.
Proof.
  revert k. induction l as [|a l IH]; intros [|k] H; try discriminate.
  - injection H as ->. reflexivity.
  - simpl in H. apply IH in H. exact H.
Qed.

Lemma skipn_nth_error_None {A} (l : list A) (k : nat) :
  nth_error l k = None -> skipn k l = [].
Proof. intros H. apply skipn_all2, nth_error_None, H. Qed.

Lemma load_byte_at (m : image) (base : Z) (k : nat) :
  load_byte m base (base + Z.of_nat k) = option_map Z_of_byte (nth_error m k).
Proof.
  unfold load_byte.
  destruct (base <=? base + Z.of_nat k) eqn:E; [|apply Z.leb_gt in E; lia].
  replace (Z.to_nat (base + Z.of_nat k - base)) with k by lia. reflexivity.
Qed.

Lemma magic_eq_cmp (base : Z) (m : image) (magic : list Z) :
  forall k st,
    magic_eq base m (base + Z.of_nat k) magic st
    = magic_cmp (skipn k m) magic st.
Proof.
  induction magic as [|c cs IH]; intros k st; cbn [magic_eq magic_cmp].
  - reflexivity.
  - unfold bind. rewrite load_byte_at.
    destruct (nth_error m k) as [b|] eqn:N.
    + rewrite (skipn_nth_error_Some _ _ _ N). cbn [option_map read ret].
      destruct (Z_of_byte b =? c); [|reflexivity].
      replace (base + Z.of_nat k + 1) with (base + Z.of_nat (S k)) by lia.
      apply IH.
    + rewrite (skipn_nth_error_None _ _ N). reflexivity.
Qed.

Lemma magic_eq_start (base : Z) (m : image) (magic : list Z) (st : state) :
  magic_eq base m base magic st = magic_cmp m magic st.
Proof.
  rewrite <- (Z.add_0_r base) at 2. apply (magic_eq_cmp base m magic 0).
Qed.

Lemma magic_cmp_differs (zs : list Z) :
  forall pre b rest c suf st,
    map byte_of_Z zs = (pre ++ c :: suf)%list -> b <> c ->
    Forall (fun z => 0 <= z < 256) zs ->
    magic_cmp (pre ++ b :: rest) zs st = Ret false st.
Proof.
  induction zs as [|z zs IH]; intros pre b rest c suf st E Hne R.
  - destruct pre; discriminate E.
  - inversion R as [|? ? Rz Rzs]; subst.
    destruct pre as [|p pre]; simpl in E; injection E as Ez Ezs.
    + cbn [app magic_cmp].
      destruct (Z_of_byte b =? z) eqn:Q; [|reflexivity].
      apply Z.eqb_eq in Q. exfalso. apply Hne.
      rewrite <- Ez, <- Q. symmetry. apply byte_of_Z_of_byte.
    + cbn [app magic_cmp]. rewrite <- Ez, Z_of_byte_of_Z.
      rewrite Z.mod_small, Z.eqb_refl by assumption.
      eapply IH; eassumption.
Qed.

Lemma ELFMAG_range : Forall (fun z => 0 <= z < 256) ELFMAG.
Proof. repeat constructor; lia. Qed.

(** X7.  A file that cannot be opened, a file of no bytes, and a file
    whose bytes part from the ELF magic at a byte the file has are each
    given up with one line (a warning, the [perror] line, a warning; the
    warnings are left out in quiet mode) and no change to either list; nothing of such a file is scanned and the
    recursive call is not made. *)
Theorem skipped_file_changes_nothing (W : world)
        (rec : string -> state -> outcome) (exe : string) (st : state) :
  (open_rdonly W exe = None ->
   exe_body W rec exe st
   = Done (warn ("Warning fldd: cannot open " ++ exe ++ ", skipping..." ++ LF) st)) /\
  (open_rdonly W exe = Some [] ->
   exe_body W rec exe st = Done (emit (Perror "copy libs") st)) /\
  (forall pre b rest c suf,
      open_rdonly W exe = Some (pre ++ b :: rest)%list ->
      ELFMAG_bytes = (pre ++ c :: suf)%list -> b <> c ->
      exe_body W rec exe st
      = Done (warn ("Warning fldd: " ++ exe
                      ++ " is not an ELF executable or library" ++ LF) st)).
Proof.
  unfold exe_body. split; [|split].
  - intros ->. reflexivity.
  - intros ->. reflexivity.
  - intros pre b rest c suf -> E Hne.
    destruct (pre ++ b :: rest)%list as [|x m'] eqn:M.
    { destruct pre; discriminate M. }
    rewrite <- M. cbv zeta. unfold scan_image, bind at 1.
    rewrite magic_eq_start.
    rewrite (magic_cmp_differs ELFMAG pre b rest c suf st E Hne ELFMAG_range).
    reflexivity.
Qed.

Lemma skipped_file_changes_nothing_witness :
  exe_body Demo.W (fun _ s => Done s) "/no/such/file" initial
  = Done (warn ("Warning fldd: cannot open " ++ "/no/such/file"
                  ++ ", skipping..." ++ LF) initial) /\
  exe_body Demo.W (fun _ s => Done s) "/tmp/empty" initial
  = Done (emit (Perror "copy libs") initial) /\
  exe_body (mkWorld true "/usr/lib"
                    [("/etc/motd", Img.readable [x7f; x45; x58])]
                    4096 None 3)
           (fun _ s => Done s) "/etc/motd" initial
  = Done (warn ("Warning fldd: " ++ "/etc/motd"
                  ++ " is not an ELF executable or library" ++ LF) initial).
Proof.
  split; [|split].
  - apply (skipped_file_changes_nothing Demo.W (fun _ s => Done s)
             "/no/such/file" initial). reflexivity.
  - apply (skipped_file_changes_nothing Demo.W (fun _ s => Done s)
             "/tmp/empty" initial). reflexivity.
  - apply (skipped_file_changes_nothing
             (mkWorld true "/usr/lib"
                      [("/etc/motd", Img.readable [x7f; x45; x58])]
                      4096 None 3)
             (fun _ s => Done s) "/etc/motd" initial)
      with (pre := [x7f; x45]) (b := x58) (rest := []) (c := x4c) (suf := [x46]).
    + reflexivity.
    + reflexivity.
    + discriminate.
Defined.

(** ** The command line *)

Lemma argc_eq_3 (a0 a1 : string) (rest : list string) :
  (Z.of_nat (List.length (a0 :: a1 :: rest)) =? 3)
  = (Nat.eqb (List.length rest) 1).
Proof.
  destruct rest as [|r1 [|r2 rest]]; try reflexivity.
  apply Z.eqb_neq. simpl List.length. lia.
Qed.

(** X10.  [main] exits with 1, before any file is scanned and with
    nothing written by [dprintf], exactly on the invocations of
    [usage_error]: fewer than two arguments, a program that is not --help
    and not readable, or three arguments and an [open] that returned
    descriptor 0.  On every other invocation an exit is an exit with 0. *)
Theorem exit_status_of_main (W : world) (fuel : nat) (argv : list string) :
  (usage_error W argv = true ->
   exists s, main W fuel argv = Exited 1 s /\
             libs s = [] /\ lib_paths s = [] /\
             dprintf_calls (trace s) = []) /\
  (usage_error W argv = false ->
   forall code s, main W fuel argv = Exited code s -> code = 0).
Proof.
  unfold usage_error, main.
  destruct argv as [|a0 [|a1 rest]].
  - split; [intros _; eexists; repeat split | discriminate].
  - split; [intros _; eexists; repeat split | discriminate].
  - cbv zeta. rewrite !argc_eq_3.
    destruct (String.eqb a1 "--help").
    { split; [discriminate | intros _ code s E; congruence]. }
    destruct (access_ok W a1).
    2:{ split; [intros _; eexists; repeat split | discriminate]. }
    cbn [negb andb orb].
    set (st1 := match getenv_FIREJAIL_QUIET W with
                | Some q => if String.eqb q "yes" then set_quiet true initial
                            else initial
                | None => initial
                end).
    assert (libs st1 = [] /\ lib_paths st1 = [] /\ trace st1 = [])
      as (L1 & P1 & T1).
    { unfold st1. destruct (getenv_FIREJAIL_QUIET W) as [q|]; [|auto].
      destruct (String.eqb q "yes"); auto. }
    destruct (String.eqb a1 "-h").
    { split; [discriminate | intros _ code s E; cbn [orb] in E; congruence]. }
    destruct (String.eqb a1 "-?").
    { split; [discriminate | intros _ code s E; cbn [orb] in E; congruence]. }
    cbn [negb andb orb].
    destruct (Nat.eqb (List.length rest) 1).
    + destruct (open_out W =? 0); cbn [andb].
      * split; [intros _ | discriminate].
        eexists. split; [reflexivity|].
        cbn [usage emit libs lib_paths trace]. rewrite L1, P1, T1.
        repeat split.
      * split; [discriminate|]. intros _ code s E.
        destruct (copy_libs_for_exe W fuel a1 _); congruence.
    + split; [discriminate|]. intros _ code s E. cbn [andb] in E.
      destruct (copy_libs_for_exe W fuel a1 _); congruence.
Qed.

Lemma exit_status_of_main_witness :
  (exists s, main (Demo.world_with None 0) 1
                  ["fldd"; "/usr/bin/prog"; "out"] = Exited 1 s /\
             libs s = [] /\ lib_paths s = [] /\
             dprintf_calls (trace s) = []) /\
  (forall code s,
      main Demo.W (enough Demo.W) ["fldd"; "/usr/bin/prog"] = Exited code s ->
      code = 0).
Proof.
  split.
  - apply (exit_status_of_main (Demo.world_with None 0) 1
             ["fldd"; "/usr/bin/prog"; "out"]). reflexivity.
  - apply (exit_status_of_main Demo.W (enough Demo.W)
             ["fldd"; "/usr/bin/prog"]). reflexivity.
Defined.

(** X11.  Arguments after the third are not looked at, and with four or
    more the third is not either: the run is the run on the program
    alone, to the standard output. *)
Theorem extra_arguments_are_ignored (W : world) (fuel : nat)
        (a0 a1 r1 r2 : string) (rest : list string) :
  main W fuel (a0 :: a1 :: r1 :: r2 :: rest) = main W fuel [a0; a1].
Proof.
  unfold main. cbv zeta. rewrite !argc_eq_3. reflexivity.
Qed.

(** ** The program-header walk *)

Lemma load_byte_store_le_frame (n : nat) :
  forall m base a a' v,
    base <= a -> a' < a \/ a + Z.of_nat n <= a' ->
    load_byte (store_le m base a n v) base a' = load_byte m base a'.
Proof.
  induction n as [|n IH]; intros m base a a' v H1 H2; cbn [store_le].
  - reflexivity.
  - rewrite IH by lia. apply load_byte_upd_other; lia.
Qed.

Lemma load_le_frame (m m' : image) (base : Z) (n : nat) :
  forall a,
    (forall a', a <= a' < a + Z.of_nat n ->
                load_byte m' base a' = load_byte m base a') ->
    load_le m' base a n = load_le m base a n.
Proof.
  induction n as [|n IH]; intros a H; [reflexivity|].
  rewrite !load_le_S, H by lia.
  rewrite IH; [reflexivity|]. intros a' Ha'. apply H. lia.
Qed.

Lemma bind_Ret {A B} (m : M A) (k : A -> M B) (st : state) (b : B) (s : state) :
  bind m k st = Ret b s -> exists a s1, m st = Ret a s1 /\ k a s1 = Ret b s.
Proof.
  unfold bind. destruct (m st) as [a s1| | | |]; try discriminate.
  intros H. exists a, s1. auto.
Qed.

Lemma e_phnum_off_nonneg (W : world) : 0 <= f_off (e_phnum (abi W)).
Proof. unfold abi. destruct (LP64 W); simpl; lia. Qed.

Lemma phdr_loop_frame (W : world) (exe : string) (base end_ : Z) (n : nat) :
  forall m pbuf st m' s,
    phdr_loop W exe base end_ n m pbuf st = Ret m' s ->
    List.length m' = List.length m /\
    forall a, a < base + f_off (e_phnum (abi W))
              \/ base + f_off (e_phnum (abi W)) + 2 <= a ->
              load_byte m' base a = load_byte m base a.
Proof.
  pose proof (e_phnum_off_nonneg W) as Off.
  assert (forall m v,
             List.length (store_le m base (base + f_off (e_phnum (abi W)))
                                   (f_len (e_phnum (abi W))) v)
             = List.length m /\
             forall a, a < base + f_off (e_phnum (abi W))
                       \/ base + f_off (e_phnum (abi W)) + 2 <= a ->
                       load_byte (store_le m base (base + f_off (e_phnum (abi W)))
                                           (f_len (e_phnum (abi W))) v) base a
                       = load_byte m base a) as St.
  { intros m v. split; [apply store_le_length|].
    intros a Ha. apply load_byte_store_le_frame; [lia|].
    rewrite e_phnum_len. lia. }
  induction n as [|n IH]; intros m pbuf st m' s H; [discriminate H|].
  cbn [phdr_loop] in H.
  apply bind_Ret in H. destruct H as (phnum & s1 & _ & H).
  cbv zeta in H.
  destruct (0 <? phnum).
  2:{ injection H as <- _. apply St. }
  apply bind_Ret in H. destruct H as (k & s2 & _ & H).
  destruct k.
  2:{ injection H as <- _. apply St. }
  apply bind_Ret in H. destruct H as (ty & s3 & _ & H).
  apply bind_Ret in H. destruct H as (u & s4 & _ & H).
  apply IH in H. destruct H as [L Fr].
  destruct (St m (phnum - 1)) as [L1 Fr1].
  split; [congruence|].
  intros a Ha. rewrite Fr, Fr1 by assumption. reflexivity.
Qed.

(** X12.  Whatever the program-header loop does, the only bytes of the
    image it writes are the two of [e_phnum]: when it falls through, the
    image it leaves has the length of the one it got and the same byte
    at every other address. *)
Theorem phdr_loop_writes_e_phnum_only (W : world) (exe : string)
        (base end_ : Z) (n : nat) (m : image) (pbuf : Z) (st : state)
        (m' : image) (s : state) :
  phdr_loop W exe base end_ n m pbuf st = Ret m' s ->
  List.length m' = List.length m /\
  forall a, a < base + f_off (e_phnum (abi W))
            \/ base + f_off (e_phnum (abi W)) + 2 <= a ->
            load_byte m' base a = load_byte m base a.
Proof. apply phdr_loop_frame. Qed.

Lemma phdr_loop_writes_e_phnum_only_witness :
  let base := mmap_base Demo.W in
  let m' := store_le Demo.libc base (base + 56) 2 (-1) in
  List.length m' = List.length Demo.libc /\
  forall a, a < base + f_off (e_phnum (abi Demo.W))
            \/ base + f_off (e_phnum (abi Demo.W)) + 2 <= a ->
            load_byte m' base a = load_byte Demo.libc base a.
Proof.
  intros base m'.
  apply (phdr_loop_writes_e_phnum_only Demo.W "/lib/libc.so.6" base
           (base + Z.of_nat (List.length Demo.libc)) 1 Demo.libc
           (base + 64) initial m' initial).
  vm_compute. reflexivity.
Defined.

Lemma header_fields_disjoint (W : world) :
  f_off (e_shoff (abi W)) + Z.of_nat (f_len (e_shoff (abi W)))
  <= f_off (e_phnum (abi W)) /\
  f_off (e_phnum (abi W)) + 2 <= f_off (e_shnum (abi W)).
Proof. unfold abi. destruct (LP64 W); simpl; lia. Qed.

Lemma ptr_bits_pos (W : world) : 0 < 2 ^ ptr_bits (abi W).
Proof. unfold abi. destruct (LP64 W); simpl; lia. Qed.

(** X13.  A file that starts with the ELF magic and whose header gives a
    section-header count of 0 and a section-header offset within the
    file has no string table for the code to find: once the
    program-header walk has fallen through, the scan ends under
    [error_close] with the [perror] line, quiet or not, and nothing from
    a dynamic section is looked at.  What the walk added to [libs]
    stays. *)
Theorem elf_without_sections (W : world) (rec : string -> state -> outcome)
        (exe : string) (st : state) (rest m1 : image) (s1 : state) (off : Z) :
  let m0 := (ELFMAG_bytes ++ rest)%list in
  open_rdonly W exe = Some m0 ->
  phdr_walk W exe m0 st = Ret m1 s1 ->
  header_field W m0 e_shoff = Some off ->
  off <= Z.of_nat (List.length m0) ->
  header_field W m0 e_shnum = Some 0 ->
  0 <= mmap_base W ->
  mmap_base W + Z.of_nat (List.length m0) < 2 ^ ptr_bits (abi W) ->
  exe_body W rec exe st = Done (emit (Perror "copy libs") s1).
Proof.
  intros m0 Hopen Hwalk Hoff Hle Hnum Hb Hfit.
  unfold exe_body. rewrite Hopen.
  change m0 with (x7f :: (x45 :: x4c :: x46 :: rest)) at 1. cbv zeta.
  change (x7f :: x45 :: x4c :: x46 :: rest) with m0.
  unfold scan_image, bind at 1. rewrite magic_eq_start.
  change (magic_cmp m0 ELFMAG st) with (Ret (A := bool) true st).
  cbn [negb]. unfold bind at 1.
  unfold phdr_walk in Hwalk. cbv zeta in Hwalk. rewrite Hwalk.
  apply phdr_loop_frame in Hwalk. destruct Hwalk as [L Fr].
  destruct (header_fields_disjoint W) as [D1 D2].
  pose proof (load_le_range _ _ _ _ _ Hoff) as Roff.
  assert (get W (mmap_base W) m1 (mmap_base W) e_shoff s1 = Ret off s1) as G1.
  { unfold get. unfold header_field in Hoff.
    rewrite (load_le_frame m0 m1), Hoff; [reflexivity|].
    intros a' Ha'. apply Fr. lia. }
  assert (get W (mmap_base W) m1 (mmap_base W) e_shnum s1 = Ret 0 s1) as G2.
  { unfold get. unfold header_field in Hnum.
    rewrite (load_le_frame m0 m1), Hnum; [reflexivity|].
    intros a' Ha'. apply Fr. lia. }
  unfold bind at 1. rewrite G1.
  assert (ptr_add W (mmap_base W) off = mmap_base W + off) as P.
  { unfold ptr_add. apply Z.mod_small. lia. }
  rewrite P. unfold bind at 1, ok, ptr_ok.
  assert ((mmap_base W <=? mmap_base W + off)
          && (mmap_base W + off <=? mmap_base W + Z.of_nat (List.length m0))
          = true) as ->.
  { apply andb_true_iff. split; apply Z.leb_le; lia. }
  cbn [negb]. unfold bind at 1. rewrite G2.
  reflexivity.
Qed.

Lemma elf_without_sections_witness :
  exe_body Demo.stripped_world (fun _ s => Done s) "/usr/bin/stripped"
           (set_quiet true initial)
  = Done (emit (Perror "copy libs")
               (mkState ["/lib64/ld-linux-x86-64.so.2"] [] true [])).
Proof.
  set (base := mmap_base Demo.stripped_world).
  apply (elf_without_sections Demo.stripped_world (fun _ s => Done s)
           "/usr/bin/stripped" (set_quiet true initial)
           (skipn 4 Demo.no_sections)
           (store_le (store_le Demo.no_sections base (base + 56) 2 0)
                     base (base + 56) 2 (-1))
           (mkState ["/lib64/ld-linux-x86-64.so.2"] [] true [])
           (Z.of_nat (List.length Demo.no_sections))).
  - reflexivity.
  - vm_compute. reflexivity.
  - reflexivity.
  - vm_compute. discriminate.
  - reflexivity.
  - vm_compute. discriminate.
  - vm_compute. reflexivity.
Defined.

(** ** A scan that faults *)

(** X14.  The list is printed only after the scan has returned: when the
    scan faults, no [dprintf] call has been made, also not for the
    entries [libs] held by then, and an output file that was opened is
    left as it was created. *)
Theorem faulting_scan_prints_nothing (W : world) (fuel : nat)
        (argv : list string) (s : state) :
  main W fuel argv = Killed s ->
  dprintf_calls (trace s) = [] /\
  (forall fd, ~ In (CloseFd fd) (trace s)).
Proof.
  unfold main.
  destruct argv as [|a0 [|a1 rest]]; try discriminate.
  destruct (String.eqb a1 "--help"); [discriminate|].
  destruct (negb (access_ok W a1)); [discriminate|].
  destruct (_ || _ || _); [discriminate|].
  cbv zeta.
  set (argc := Z.of_nat (List.length (a0 :: a1 :: rest))).
  set (st1 := match getenv_FIREJAIL_QUIET W with
              | Some q => if String.eqb q "yes" then set_quiet true initial
                          else initial
              | None => initial
              end).
  assert (trace st1 = []) as T1.
  { unfold st1. destruct (getenv_FIREJAIL_QUIET W) as [q|]; [|reflexivity].
    destruct (String.eqb q "yes"); reflexivity. }
  set (st2 := if argc =? 3 then _ else st1).
  assert (dprintf_calls (trace st2) = [] /\
          forall fd, ~ In (CloseFd fd) (trace st2)) as [D2 C2].
  { unfold st2. destruct (argc =? 3); cbn [emit trace]; rewrite T1; simpl.
    - split; [reflexivity|]. intros fd [H|[]]. discriminate H.
    - split; [reflexivity|]. intros fd []. }
  destruct ((argc =? 3) && _); [discriminate|].
  pose proof (copy_libs_for_exe_trace W fuel a1 (lib_paths_init W st2)) as K.
  destruct (copy_libs_for_exe W fuel a1 (lib_paths_init W st2)) as [s'|s'|];
    try discriminate.
  intros E. assert (s' = s) as <- by congruence.
  cbn [holds_out] in K. destruct K as (diag & Et & Hd).
  cbn [lib_paths_init set_lib_paths trace] in Et. rewrite Et. split.
  - rewrite dprintf_calls_app, D2, (dprintf_calls_diag diag Hd). reflexivity.
  - intros fd Hin. apply in_app_or in Hin. destruct Hin as [Hin|Hin].
    + exact (C2 fd Hin).
    + rewrite forallb_forall in Hd. specialize (Hd _ Hin). discriminate Hd.
Qed.

Lemma faulting_scan_prints_nothing_witness :
  dprintf_calls
    (trace (mkState ["/lib/x86_64-linux-gnu/libc.so.6"]
                    (lib_paths (lib_paths_init Demo.W initial)) false
                    [OpenOut "out" 577 420 3])) = [] /\
  (forall fd,
      ~ In (CloseFd fd)
           (trace (mkState ["/lib/x86_64-linux-gnu/libc.so.6"]
                           (lib_paths (lib_paths_init Demo.W initial)) false
                           [OpenOut "out" 577 420 3]))).
Proof.
  apply (faulting_scan_prints_nothing Demo.W (enough Demo.W)
           ["fldd"; "/tmp/progbits_first"; "out"]).
  vm_compute. reflexivity.
Defined.
